(** * Schedule classification (mwhittaker/serial): a shallow embedding

    The development follows the Python sources:
    - [action.py]: the four kinds of actions and their constructors;
    - [serial.py]: schedule decomposition, the conflict graph, view
      equivalence and the five classifiers;
    - [schedule.py]: the interleaving of lists with which random
      schedules are built.

    Python dictionaries and sets are finite maps and finite sets
    ([gmap], [gset]); a [networkx] directed graph is a pair of a node set
    and an edge set; a loop that can [return False] half-way is a scan in
    the option monad; the [assert] of [view_equivalent] is a result type
    with an [AssertionError] case; the random sample that [shuffle] draws
    is a parameter. *)

From stdpp Require Import gmap strings list fin_maps relations sorting.

(** ** action.py *)

Module action.

(** Enumeration of action types. *)
Inductive Op := READ | WRITE | COMMIT | ABORT.

(** An action is built by one of the four constructors of action.py:
    [r(t, obj)], [w(t, obj)], [commit(t)], [abort(t)].  A transaction id
    is a number and an object is a string. *)
Inductive Action :=
| r (t : nat) (o : string)
| w (t : nat) (o : string)
| commit (t : nat)
| abort (t : nat).

(** The fields [self.op], [self.i], [self.obj] ([obj] defaults to
    [None] for commits and aborts). *)
Definition op (a : Action) : Op :=
  match a with
  | r _ _ => READ
  | w _ _ => WRITE
  | commit _ => COMMIT
  | abort _ => ABORT
  end.

Definition i (a : Action) : nat :=
  match a with
  | r t _ | w t _ | commit t | abort t => t
  end.

Definition obj (a : Action) : option string :=
  match a with
  | r _ o | w _ o => Some o
  | commit _ | abort _ => None
  end.

#[global] Instance Op_eq_dec : EqDecision Op.
Proof. solve_decision. Defined.

#[global] Instance Action_eq_dec : EqDecision Action.
Proof. solve_decision. Defined.

(** [__hash__] hashes the triple [(op, i, obj)]; the same triple makes
    actions countable, so that they can be members of finite sets. *)
Definition Op_code (o : Op) : nat :=
  match o with READ => 1 | WRITE => 2 | COMMIT => 3 | ABORT => 4 end.

Definition Op_of_code (n : nat) : Op :=
  match n with 1 => READ | 2 => WRITE | 3 => COMMIT | _ => ABORT end.

#[global] Instance Op_countable : Countable Op.
Proof. apply (inj_countable' Op_code Op_of_code). by intros []. Defined.

Definition Action_triple (a : Action) : Op * nat * option string :=
  (op a, i a, obj a).

Definition Action_of_triple (x : Op * nat * option string) : Action :=
  match x with
  | (READ, t, Some o) => r t o
  | (WRITE, t, Some o) => w t o
  | (COMMIT, t, _) => commit t
  | (_, t, _) => abort t
  end.

#[global] Instance Action_countable : Countable Action.
Proof.
  apply (inj_countable' Action_triple Action_of_triple). by intros [].
Defined.

End action.

Export action.

(** ** The part of networkx that serial.py uses *)

Module nx.

Section digraph.
Context {N : Type} `{Countable N}.

(** [nx.DiGraph()]: a set of nodes and a set of directed edges. *)
Record DiGraph := mkDiGraph {
  nodes : gset N;
  edges : gset (N * N)
}.

Definition empty : DiGraph := mkDiGraph ∅ ∅.

Definition add_node (G : DiGraph) (n : N) : DiGraph :=
  mkDiGraph ({[n]} ∪ nodes G) (edges G).

Definition add_nodes_from (G : DiGraph) (ns : list N) : DiGraph :=
  foldl add_node G ns.

(** [G.add_edge(u, v)] also adds the endpoints that are not nodes yet. *)
Definition add_edge (G : DiGraph) (u v : N) : DiGraph :=
  mkDiGraph ({[u; v]} ∪ nodes G) ({[(u, v)]} ∪ edges G).

Definition has_edge (G : DiGraph) (u v : N) : bool :=
  bool_decide ((u, v) ∈ edges G).

(** [nx.simple_cycles(G)] lists the elementary circuits of [G], each
    one once.  As in Johnson's algorithm, the circuits through the
    first node are searched first, then that node is removed and the
    search goes on in the rest of the graph.

    [circuits_from G root fuel avail x] lists the duplicate-free paths
    [x -> y1 -> ... -> yk] through the nodes of [avail] such that
    [yk -> root] is an edge ([k] may be 0) and [k <= fuel]. *)
Fixpoint circuits_from (G : DiGraph) (root : N) (fuel : nat)
    (avail : list N) (x : N) : list (list N) :=
  (if has_edge G x root then [[]] else []) ++
  match fuel with
  | 0 => []
  | S fuel =>
      y ← avail;
      if has_edge G x y
      then cons y <$> circuits_from G root fuel (filter (λ z, z ≠ y) avail) y
      else []
  end.

Fixpoint cycles_in (G : DiGraph) (ns : list N) : list (list N) :=
  match ns with
  | [] => []
  | v :: rest =>
      (cons v <$> circuits_from G v (length rest) rest v)
        ++ cycles_in G rest
  end.

Definition simple_cycles (G : DiGraph) : list (list N) :=
  cycles_in G (elements (nodes G)).

End digraph.

Arguments DiGraph N {_ _}.

End nx.

(** ** serial.py *)

(** *** Helper functions *)

Definition flatten {A} (ls : list (list A)) : list A :=
  l ← ls; x ← l; [x].

Definition graphs_eq {N} `{Countable N} (g1 g2 : nx.DiGraph N) : bool :=
  bool_decide (nx.nodes g1 = nx.nodes g2)
  && bool_decide (nx.edges g1 = nx.edges g2).

Definition transaction_ids (schedule : list Action) : list nat :=
  foldl (λ js a, if decide (i a ∈ js) then js else js ++ [i a]) [] schedule.

(** [index[a.i]] cannot miss: every id of the schedule is in [js]. *)
Definition transactions (schedule : list Action) : list (list Action) :=
  let js := transaction_ids schedule in
  let partitions : list (list Action) := replicate (length js) [] in
  let index : gmap nat nat :=
    foldl (λ m kj, <[kj.2 := kj.1]> m) ∅ (imap (λ k j, (k, j)) js) in
  foldl (λ ps a, alter (λ p, p ++ [a]) (index !!! i a) ps) partitions schedule.

Definition drop_aborts (schedule : list Action) : list Action :=
  let aborteds : gset nat :=
    list_to_set (i <$> filter (λ a, op a = ABORT) schedule) in
  filter (λ a, i a ∉ aborteds) schedule.

Definition add_commits (schedule : list Action) : list Action :=
  let ends : gset nat :=
    list_to_set
      (i <$> filter (λ a, op a = COMMIT ∨ op a = ABORT) schedule) in
  let no_ends := filter (λ j, j ∉ ends) (transaction_ids schedule) in
  schedule ++ (commit <$> no_ends).

(** [fr] is a [defaultdict(list)]: [fr[o].append(t)] on a missing key
    starts from the empty list. *)
Definition first_read_step (st : gmap string (list nat) * gset string)
    (a : Action) : gmap string (list nat) * gset string :=
  let '(fr, written) := st in
  match a with
  | r t o =>
      if decide (o ∉ written)
      then (<[o := (fr !!! o) ++ [t]]> fr, written)
      else (fr, written)
  | w _ o => (fr, {[o]} ∪ written)
  | _ => (fr, written)
  end.

Definition first_read (schedule : list Action) : gmap string (list nat) :=
  (foldl first_read_step (∅, ∅) schedule).1.

(** [ns[a.i]] cannot miss: [ns] has a key for every id of the schedule. *)
Definition number_step (st : gmap nat nat * list (nat * Action))
    (a : Action) : gmap nat nat * list (nat * Action) :=
  let '(ns, s) := st in
  (<[i a := S (ns !!! i a)]> ns, s ++ [(ns !!! i a, a)]).

Definition number (schedule : list Action) : list (nat * Action) :=
  let ns : gmap nat nat :=
    list_to_map ((λ j, (j, 0)) <$> transaction_ids schedule) in
  (foldl number_step (ns, []) schedule).2.

Definition view_graph_step
    (st : nx.DiGraph (nat * Action) * gmap string (nat * Action))
    (na : nat * Action)
    : nx.DiGraph (nat * Action) * gmap string (nat * Action) :=
  let '(G, last_written) := st in
  match na.2 with
  | w _ o => (G, <[o := na]> last_written)
  | r _ o =>
      match last_written !! o with
      | Some nw => (nx.add_edge G na nw, last_written)
      | None => (G, last_written)
      end
  | _ => (G, last_written)
  end.

Definition view_graph (schedule : list Action) : nx.DiGraph (nat * Action) :=
  (foldl view_graph_step (nx.empty, ∅) (number schedule)).1.

Definition last_written (schedule : list Action) : gmap string nat :=
  foldl (λ lw a, match a with w t o => <[o := t]> lw | _ => lw end)
        ∅ schedule.

(** The outcome of a call that may fail an [assert]. *)
Inductive exn := AssertionError.

Inductive result (A : Type) :=
| Ok (x : A)
| Raise (e : exn).

Arguments Ok {A} x.
Arguments Raise {A} e.

Definition view_equivalent (s1 s2 : list Action) : result bool :=
  if decide (list_to_set (transaction_ids s1)
             =@{gset nat} list_to_set (transaction_ids s2))
  then
    (* condition 1 *)
    if negb (bool_decide (first_read s1 = first_read s2)) then Ok false
    (* condition 2 *)
    else if negb (graphs_eq (view_graph s1) (view_graph s2)) then Ok false
    (* condition 3 *)
    else if negb (bool_decide (last_written s1 = last_written s2))
    then Ok false
    else Ok true
  else Raise AssertionError.

(** *** The conflict graph *)

(** The inner loop [for b in schedule[i+1:]] for one action [a]. *)
Definition conflict_edges_from (G : nx.DiGraph nat) (a : Action)
    (rest : list Action) : nx.DiGraph nat :=
  foldl (λ G b,
           let same_obj := bool_decide (obj a = obj b) in
           let diff_txn := bool_decide (i a ≠ i b) in
           let conflict :=
             bool_decide (op a = WRITE) || bool_decide (op b = WRITE) in
           if same_obj && diff_txn && conflict
           then nx.add_edge G (i a) (i b)
           else G)
        G rest.

(** The outer loop: [schedule[i+1:]] is what follows [a]. *)
Fixpoint conflict_edges (G : nx.DiGraph nat) (schedule : list Action)
    : nx.DiGraph nat :=
  match schedule with
  | [] => G
  | a :: rest => conflict_edges (conflict_edges_from G a rest) rest
  end.

Definition conflict_graph (schedule : list Action) : nx.DiGraph nat :=
  let schedule := drop_aborts schedule in
  let G := nx.add_nodes_from nx.empty (transaction_ids schedule) in
  conflict_edges G schedule.

(** *** Predicates *)

Definition conflict_serializable (schedule : list Action) : bool :=
  bool_decide (length (nx.simple_cycles (conflict_graph schedule)) = 0).

(** [itertools.permutations]: the element at each position in turn,
    followed by the permutations of the others. *)
Fixpoint select {A} (l : list A) : list (A * list A) :=
  match l with
  | [] => []
  | x :: l' => (x, l') :: (prod_map id (cons x) <$> select l')
  end.

Fixpoint permutations_of_length {A} (n : nat) (l : list A)
    : list (list A) :=
  match n with
  | 0 => [[]]
  | S n => xr ← select l; cons xr.1 <$> permutations_of_length n xr.2
  end.

Definition permutations {A} (l : list A) : list (list A) :=
  permutations_of_length (length l) l.

(** The scan of one partition for a blind write. *)
Definition blind_write_step (st : bool * gset string) (a : Action)
    : bool * gset string :=
  let '(blind_write, objects_read) := st in
  match a with
  | w _ o =>
      if decide (o ∉ objects_read)
      then (true, objects_read)
      else (blind_write, objects_read)
  | r _ o => (blind_write, {[o]} ∪ objects_read)
  | _ => (blind_write, objects_read)
  end.

Definition has_blind_write (partitions : list (list Action)) : bool :=
  foldl (λ blind_write t, (foldl blind_write_step (blind_write, ∅) t).1)
        false partitions.

(** The brute force loop over the serializations. *)
Fixpoint search_serial (schedule : list Action)
    (candidates : list (list (list Action))) : result bool :=
  match candidates with
  | [] => Ok false
  | s :: rest =>
      match view_equivalent (flatten s) schedule with
      | Raise e => Raise e
      | Ok true => Ok true
      | Ok false => search_serial schedule rest
      end
  end.

Definition view_serializable (schedule : list Action) : result bool :=
  let schedule := drop_aborts schedule in
  if conflict_serializable schedule then Ok true
  else
    let partitions := transactions schedule in
    if negb (has_blind_write partitions) then Ok false
    else search_serial schedule (permutations (transactions schedule)).

(** A [for] loop over the schedule whose body may [return False]:
    [None] is the early return. *)
Fixpoint scan {St} (step : St → Action → option St) (st : St)
    (schedule : list Action) : option St :=
  match schedule with
  | [] => Some st
  | a :: rest => st' ← step st a; scan step st' rest
  end.

(** [ids[o][-1]] when [o in ids and len(ids[o]) > 0]. *)
Definition last_writer (ids : gmap string (list nat)) (o : string)
    : option nat :=
  ids !! o ≫= last.

(** The body of [for (o, ids) in written_by.iteritems()] on an abort. *)
Definition purge (t : nat) (ids : gmap string (list nat))
    : gmap string (list nat) :=
  filter (λ j, j ≠ t) <$> ids.

Record recoverable_state := mk_recoverable_state {
  written_by : gmap string (list nat);
  read_from : gmap nat (gset nat);
  committed : gset nat
}.

(** [read_from] is a [defaultdict(set)]: reading [read_from[a.i]] on a
    commit creates the key. *)
Definition recoverable_step (st : recoverable_state) (a : Action)
    : option recoverable_state :=
  let '(mk_recoverable_state written_by read_from committed) := st in
  match a with
  | w t o =>
      Some (mk_recoverable_state
              (<[o := (written_by !!! o) ++ [t]]> written_by)
              read_from committed)
  | r t o =>
      match last_writer written_by o with
      | Some j =>
          if decide (j ≠ t)
          then Some (mk_recoverable_state written_by
                       (<[t := {[j]} ∪ (read_from !!! t)]> read_from)
                       committed)
          else Some st
      | None => Some st
      end
  | commit t =>
      if decide (read_from !!! t ⊆ committed)
      then Some (mk_recoverable_state written_by
                   (<[t := read_from !!! t]> read_from)
                   ({[t]} ∪ committed))
      else None
  | abort t =>
      Some (mk_recoverable_state (purge t written_by) read_from committed)
  end.

Definition recoverable (schedule : list Action) : bool :=
  let schedule := add_commits schedule in
  bool_decide (is_Some
    (scan recoverable_step (mk_recoverable_state ∅ ∅ ∅) schedule)).

(** The state of [aca] and [strict]: [last_write] and [committed]. *)
Definition aca_step (st : gmap string (list nat) * gset nat) (a : Action)
    : option (gmap string (list nat) * gset nat) :=
  let '(last_write, committed) := st in
  match a with
  | w t o => Some (<[o := (last_write !!! o) ++ [t]]> last_write, committed)
  | r t o =>
      match last_writer last_write o with
      | Some j =>
          if decide ((j ∉ committed) ∧ j ≠ t) then None else Some st
      | None => Some st
      end
  | commit t => Some (last_write, {[t]} ∪ committed)
  | abort t => Some (purge t last_write, committed)
  end.

Definition aca (schedule : list Action) : bool :=
  let schedule := add_commits schedule in
  bool_decide (is_Some (scan aca_step (∅, ∅) schedule)).

Definition strict_check (last_write : gmap string (list nat))
    (committed : gset nat) (t : nat) (o : string) : bool :=
  match last_writer last_write o with
  | Some j => bool_decide ((j ∉ committed) ∧ j ≠ t)
  | None => false
  end.

Definition strict_step (st : gmap string (list nat) * gset nat)
    (a : Action) : option (gmap string (list nat) * gset nat) :=
  let '(last_write, committed) := st in
  match a with
  | w t o =>
      if strict_check last_write committed t o then None
      else Some (<[o := (last_write !!! o) ++ [t]]> last_write, committed)
  | r t o =>
      if strict_check last_write committed t o then None else Some st
  | commit t => Some (last_write, {[t]} ∪ committed)
  | abort t => Some (purge t last_write, committed)
  end.

Definition strict (schedule : list Action) : bool :=
  let schedule := add_commits schedule in
  bool_decide (is_Some (scan strict_step (∅, ∅) schedule)).

(** ** schedule.py *)

Section shuffle.
Context {V : Type} (none : V).

(** [shuffled[i] = x], an [IndexError] ([None]) when [i] is out of
    range. *)
Definition assign (shuffled : list V) (k : nat) (x : V) : option (list V) :=
  if decide (k < length shuffled) then Some (<[k := x]> shuffled) else None.

(** [for (x, i) in zip(xs, indices): shuffled[i] = x]. *)
Fixpoint assign_all (shuffled xs : list V) (indices : list nat)
    : option (list V) :=
  match xs, indices with
  | x :: xs, k :: indices =>
      shuffled ← assign shuffled k x; assign_all shuffled xs indices
  | _, _ => Some shuffled
  end.

(** [sample] is what [r.sample(indices, len(xs))] returns. *)
Definition shuffle (xs ys : list V) (sample : list nat) : option (list V) :=
  let shuffled_len := length xs + length ys in
  let shuffled := replicate shuffled_len none in
  let indices := seq 0 shuffled_len in
  let xs_indices := merge_sort (≤) sample in
  let ys_indices := filter (λ k, k ∉ xs_indices) indices in
  shuffled ← assign_all shuffled xs xs_indices;
  assign_all shuffled ys ys_indices.

(** [reduce(lambda xs, ys: shuffle(xs, ys, r), ls, [])], where
    [samples k] is what [r.sample] returns in the call for [ls[k]]. *)
Definition shuffles (ls : list (list V)) (samples : nat → list nat)
    : option (list V) :=
  foldl (λ acc kys, xs ← acc; shuffle xs kys.2 (samples kys.1))
        (Some []) (imap (λ k ys, (k, ys)) ls).

End shuffle.

(** [random.sample(population, k)] returns [k] distinct elements of the
    population, here [range(N)]. *)
Definition valid_sample (k N : nat) (sample : list nat) : Prop :=
  NoDup sample ∧ length sample = k ∧ Forall (λ j, j < N) sample.

(** ** Notions used to state the properties *)

(** *** Positions and order in a schedule *)

(** The position of the first action of transaction [t] (the length of
    the schedule when [t] has no action). *)
Fixpoint first_pos (t : nat) (schedule : list Action) : nat :=
  match schedule with
  | [] => 0
  | a :: rest => if decide (i a = t) then 0 else S (first_pos t rest)
  end.

(** The two schedules range over the same transaction ids. *)
Definition same_transaction_ids (s1 s2 : list Action) : Prop :=
  ∀ t, t ∈ i <$> s1 ↔ t ∈ i <$> s2.

(** The number of actions of the transaction of [a] among the first [p]
    actions of the schedule. *)
Definition local_index (schedule : list Action) (p : nat) (a : Action) : nat :=
  length (filter (λ b, i b = i a) (take p schedule)).

(** *** Conflicts *)

(** Two actions conflict: same object, different transactions, at least
    one write. *)
Definition conflict_pair (a b : Action) : Prop :=
  obj a = obj b ∧ i a ≠ i b ∧ (op a = WRITE ∨ op b = WRITE).

Definition is_read_or_write (a : Action) : Prop :=
  op a = READ ∨ op a = WRITE.

#[global] Instance is_read_or_write_dec a : Decision (is_read_or_write a).
Proof. unfold is_read_or_write. apply _. Defined.

(** *** Walks and cycles in a directed graph *)

Definition edge_rel {N} `{Countable N} (G : nx.DiGraph N) : relation N :=
  λ x y, (x, y) ∈ nx.edges G.

(** A directed cycle: a walk of at least one edge from a node back to
    itself. *)
Definition has_directed_cycle {N} `{Countable N} (G : nx.DiGraph N) : Prop :=
  ∃ v, tc (edge_rel G) v v.

(** Every edge joins two nodes of the graph. *)
Definition edges_in_nodes {N} `{Countable N} (G : nx.DiGraph N) : Prop :=
  ∀ x y, (x, y) ∈ nx.edges G → x ∈ nx.nodes G ∧ y ∈ nx.nodes G.

(** Every node is an endpoint of some edge. *)
Definition endpoints_only {N} `{Countable N} (G : nx.DiGraph N) : Prop :=
  ∀ n, n ∈ nx.nodes G ↔ ∃ m, (n, m) ∈ nx.edges G ∨ (m, n) ∈ nx.edges G.

(** [chain R l]: each element of [l] is related to the next one. *)
Fixpoint chain {A} (R : relation A) (l : list A) : Prop :=
  match l with
  | x :: l' => match l' with y :: _ => R x y ∧ chain R l' | [] => True end
  | [] => True
  end.

(** The relation [R] between members of [ns] only. *)
Definition within {A} (R : relation A) (ns : list A) : relation A :=
  λ x y, R x y ∧ x ∈ ns ∧ y ∈ ns.

(** *** Reads that observe writes, in a numbered schedule *)

Definition writes_to (o : string) (n : nat * Action) : Prop :=
  ∃ t, n.2 = w t o.

Definition reads (o : string) (n : nat * Action) : Prop :=
  ∃ t, n.2 = r t o.

(** [nw] is the last write to [o] in [l]. *)
Definition latest_write (l : list (nat * Action)) (o : string)
    (nw : nat * Action) : Prop :=
  ∃ p, l !! p = Some nw ∧ writes_to o nw
       ∧ ∀ k n, p < k → l !! k = Some n → ¬ writes_to o n.

(** The read [nr] observes the write [nw]: [nw] is the most recent write
    to the object of [nr] before [nr]. *)
Definition observes (l : list (nat * Action)) (nr nw : nat * Action) : Prop :=
  ∃ o p q, p < q ∧ l !! p = Some nw ∧ l !! q = Some nr
           ∧ writes_to o nw ∧ reads o nr
           ∧ ∀ k n, p < k < q → l !! k = Some n → ¬ writes_to o n.

(** *** First reads and final writers *)

(** The ids of the transactions that read [o] before any write to [o],
    in schedule order. *)
Fixpoint first_readers (o : string) (schedule : list Action) : list nat :=
  match schedule with
  | [] => []
  | r t o' :: rest =>
      if decide (o' = o) then t :: first_readers o rest
      else first_readers o rest
  | w _ o' :: rest =>
      if decide (o' = o) then [] else first_readers o rest
  | _ :: rest => first_readers o rest
  end.

(** The id of the transaction that writes [o] last. *)
Definition final_writer (o : string) (schedule : list Action) : option nat :=
  last (omap (λ a, match a with
                   | w t o' => if decide (o' = o) then Some t else None
                   | _ => None
                   end) schedule).

(** A dictionary of lists holds no empty list. *)
Definition nonempty_list {A} (l : list A) : option (list A) :=
  match l with [] => None | _ => Some l end.

(** *** Numbered actions and the agreements of view equivalence *)

(** Each action of the schedule paired with the number of earlier actions
    of its transaction. *)
Definition numbered (schedule : list Action) : list (nat * Action) :=
  imap (λ p a, (local_index schedule p a, a)) schedule.

(** The two schedules have the same first readers of every object, the
    same pairs of a numbered read and the numbered write it observes, and
    the same final writer of every object. *)
Definition view_agreement (s1 s2 : list Action) : Prop :=
  (∀ o, first_readers o s1 = first_readers o s2)
  ∧ (∀ nr nw, observes (numbered s1) nr nw ↔ observes (numbered s2) nr nw)
  ∧ (∀ o, final_writer o s1 = final_writer o s2).

(** *** The state of the recovery classifiers *)

Definition recoverable_init : recoverable_state :=
  mk_recoverable_state ∅ ∅ ∅.

(** The [written_by] component of the loop of [recoverable], which does
    not depend on the two other components: writes are appended, an abort
    purges the aborting transaction. *)
Definition history_step (ids : gmap string (list nat)) (a : Action)
    : gmap string (list nat) :=
  match a with
  | w t o => <[o := (ids !!! o) ++ [t]]> ids
  | abort t => purge t ids
  | _ => ids
  end.

Definition write_history (schedule : list Action)
    : gmap string (list nat) :=
  foldl history_step ∅ schedule.

(** Every recorded read-from dependency is on a committed transaction. *)
Definition read_from_committed (rf : gmap nat (gset nat))
    (com : gset nat) : Prop :=
  ∀ t, rf !!! t ⊆ com.

(** *** Schedules of the test suite and of the scenarios *)

Definition schedule4 : list Action :=
  [r 1 "A"; w 1 "A"; r 2 "A"; w 2 "A"; r 1 "B"; w 1 "B"; r 1 "B"; w 1 "B";
   commit 1; commit 2].

Definition schedule5 : list Action :=
  [r 1 "A"; w 2 "A"; commit 2; w 1 "A"; commit 1; w 3 "A"; commit 3].

Definition schedule6 : list Action := [w 1 "A"; r 1 "A"; commit 1].

Definition schedule7 : list Action :=
  [w 2 "A"; abort 2; r 1 "A"; commit 1].

Definition exercise9 : list Action :=
  [w 1 "X"; r 2 "X"; w 1 "X"; commit 2; abort 1].

Definition exercise10 : list Action :=
  [r 2 "X"; w 3 "X"; commit 3; w 1 "Y"; commit 1; r 2 "Y"; w 2 "Z";
   commit 2].

Definition exercise12 : list Action :=
  [r 1 "X"; w 2 "X"; w 1 "X"; r 3 "X"; commit 1; commit 2; commit 3].

(** Scenario B, which is [exercise6] of the test suite. *)
Definition scenario_B : list Action :=
  [r 1 "X"; w 2 "X"; w 1 "X"; commit 2; commit 1].

(** Transaction 1 reads from transaction 2, and both read the initial
    value of ["A"], transaction 1 first. *)
Definition reordered_first_reads : list Action :=
  [r 1 "A"; r 2 "A"; w 2 "B"; r 1 "B"].

(** Transaction 2 reads from transaction 1, which then aborts. *)
Definition abort_after_read : list Action :=
  [w 1 "X"; r 2 "X"; abort 1; commit 2].

(** Transaction 1 writes and aborts, before the read of transaction 2 or
    after it. *)
Definition aborted_write_before_read : list Action :=
  [w 1 "X"; abort 1; r 2 "X"].

Definition aborted_write_after_read : list Action :=
  [r 2 "X"; w 1 "X"; abort 1].

(** *** Serial schedules of terminated transactions *)

(** A block of actions of one transaction that ends with its commit or
    its abort. *)
Definition terminated_block (block : list Action) : Prop :=
  ∃ t, Forall (λ a, i a = t) block
       ∧ (last block = Some (commit t) ∨ last block = Some (abort t)).

(** Every writer recorded in [last_write] is committed. *)
Definition all_committed (st : gmap string (list nat) * gset nat) : Prop :=
  ∀ o j, j ∈ st.1 !!! o → j ∈ st.2.

(** Every writer recorded in [last_write] is committed or is [t]. *)
Definition all_committed_or (t : nat)
    (st : gmap string (list nat) * gset nat) : Prop :=
  ∀ o j, j ∈ st.1 !!! o → j ∈ st.2 ∨ j = t.

(** *** Writes that survive, dirty accesses and read-from dependencies *)

(** The writers of [o] in [l], in schedule order, one for each write
    that is not followed by an abort of its transaction. *)
Fixpoint surviving_writers (o : string) (l : list Action) : list nat :=
  match l with
  | [] => []
  | w t o' :: rest =>
      if decide (o' = o ∧ abort t ∉ rest)
      then t :: surviving_writers o rest
      else surviving_writers o rest
  | _ :: rest => surviving_writers o rest
  end.

(** The action [a], which comes after the actions [pre], accesses an
    object whose last surviving write is by another transaction that has
    not committed in [pre]. *)
Definition dirty (pre : list Action) (a : Action) : Prop :=
  ∃ o j, obj a = Some o ∧ last (surviving_writers o pre) = Some j
         ∧ j ≠ i a ∧ commit j ∉ pre.

(** In [l], transaction [u] reads an object whose last surviving write
    is by another transaction [j]. *)
Definition reads_from (l : list Action) (u j : nat) : Prop :=
  ∃ pre o post, l = pre ++ r u o :: post
                ∧ last (surviving_writers o pre) = Some j ∧ j ≠ u.

(** Every commit comes after the commits of the transactions that the
    committing transaction has read from. *)
Definition commits_after_sources (l : list Action) : Prop :=
  ∀ pre t post j,
    l = pre ++ commit t :: post → reads_from pre t j → commit j ∈ pre.

(** The loop bodies of [aca] and [strict] differ in the actions they
    check only: one step with the checked actions as a parameter. *)
Definition checked_step (checked : Action → bool)
    (st : gmap string (list nat) * gset nat) (a : Action)
    : option (gmap string (list nat) * gset nat) :=
  let '(last_write, committed) := st in
  if checked a
     && match obj a with
        | Some o => strict_check last_write committed (i a) o
        | None => false
        end
  then None
  else Some (history_step last_write a,
             match a with commit t => {[t]} ∪ committed | _ => committed end).

(** ** Properties *)

(** *** The doctests and the test suite *)

Example flatten_doctest : flatten [[]; [1]; [2; 3]; [4]] = [1; 2; 3; 4].
Proof. reflexivity. Qed.

Example transaction_ids_doctest :
  transaction_ids [r 1 "A"; r 2 "A"; w 1 "A"; r 3 "A"] = [1; 2; 3].
Proof. reflexivity. Qed.

Example transactions_doctest :
  transactions schedule5
  = [[r 1 "A"; w 1 "A"; commit 1]; [w 2 "A"; commit 2];
     [w 3 "A"; commit 3]].
Proof. vm_compute. reflexivity. Qed.

Example drop_aborts_doctest :
  drop_aborts [r 1 "A"; r 2 "A"; r 3 "A"; abort 1; commit 2; abort 3]
  = [r 2 "A"; commit 2].
Proof. vm_compute. reflexivity. Qed.

Example add_commits_doctest :
  add_commits [r 1 "A"; r 2 "A"; r 3 "A"; r 4 "A"; commit 2; abort 4]
  = [r 1 "A"; r 2 "A"; r 3 "A"; r 4 "A"; commit 2; abort 4;
     commit 1; commit 3].
Proof. vm_compute. reflexivity. Qed.

Example first_read_doctest :
  first_read [w 1 "A"; w 2 "B"] = ∅
  ∧ first_read [r 1 "A"; r 2 "B"; r 2 "A"]
    = {[ "A" := [1; 2]; "B" := [2] ]}.
Proof. split; vm_compute; reflexivity. Qed.

Example number_doctest :
  number [r 1 "A"; r 1 "B"; r 2 "A"; w 3 "A"; commit 2]
  = [(0, r 1 "A"); (1, r 1 "B"); (0, r 2 "A"); (0, w 3 "A");
     (1, commit 2)].
Proof. vm_compute. reflexivity. Qed.

Example last_written_doctest :
  last_written [r 1 "A"; r 2 "B"] = ∅
  ∧ last_written [w 1 "A"; w 2 "B"; w 2 "A"] = {[ "A" := 2; "B" := 2 ]}.
Proof. split; vm_compute; reflexivity. Qed.

Example permutations_order :
  permutations [1; 2; 3]
  = [[1; 2; 3]; [1; 3; 2]; [2; 1; 3]; [2; 3; 1]; [3; 1; 2]; [3; 2; 1]].
Proof. reflexivity. Qed.

Example test_conflict_graph :
  graphs_eq (conflict_graph schedule4)
            (nx.add_edge (nx.add_nodes_from nx.empty [1; 2]) 1 2) = true.
Proof. vm_compute. reflexivity. Qed.

Example test_view_serializable :
  view_serializable schedule5 = Ok true
  ∧ view_serializable exercise9 = Ok true
  ∧ view_serializable exercise10 = Ok true
  ∧ view_serializable scenario_B = Ok false
  ∧ view_serializable exercise12 = Ok false.
Proof. split_and!; vm_compute; reflexivity. Qed.

Example test_conflict_serializable :
  conflict_serializable schedule4 = true
  ∧ conflict_serializable exercise9 = true
  ∧ conflict_serializable schedule5 = false
  ∧ conflict_serializable exercise12 = false.
Proof. split_and!; vm_compute; reflexivity. Qed.

Example test_recoverable :
  recoverable schedule6 = true
  ∧ recoverable schedule7 = true
  ∧ recoverable exercise12 = true
  ∧ recoverable exercise9 = false.
Proof. split_and!; vm_compute; reflexivity. Qed.

Example test_aca :
  aca schedule6 = true
  ∧ aca schedule7 = true
  ∧ aca exercise9 = false
  ∧ aca exercise12 = false.
Proof. split_and!; vm_compute; reflexivity. Qed.

Example test_strict :
  strict schedule6 = true
  ∧ strict schedule7 = true
  ∧ strict exercise10 = true
  ∧ strict exercise9 = false
  ∧ strict exercise12 = false.
Proof. split_and!; vm_compute; reflexivity. Qed.

Lemma transaction_ids_snoc schedule a :
  transaction_ids (schedule ++ [a]) =
  if decide (i a ∈ transaction_ids schedule)
  then transaction_ids schedule
  else transaction_ids schedule ++ [i a].
Proof. unfold transaction_ids. by rewrite foldl_snoc. Qed.

Lemma elem_of_transaction_ids schedule t :
  t ∈ transaction_ids schedule ↔ t ∈ i <$> schedule.
Proof.
  induction schedule as [|a schedule IH] using rev_ind; [done|].
  rewrite transaction_ids_snoc, fmap_app, elem_of_app. simpl.
  case_decide as Hin.
  - rewrite IH. rewrite list_elem_of_singleton. split; [auto|].
    intros [?| ->]; [done|]. by apply IH.
  - by rewrite elem_of_app, IH, list_elem_of_singleton.
Qed.

Lemma NoDup_transaction_ids schedule : NoDup (transaction_ids schedule).
Proof.
  induction schedule as [|a schedule IH] using rev_ind; [constructor|].
  rewrite transaction_ids_snoc. case_decide as Hin; [done|].
  apply NoDup_app. split_and!; [done| |apply NoDup_singleton].
  intros x Hx ->%list_elem_of_singleton. done.
Qed.

Lemma first_pos_lt t schedule :
  t ∈ i <$> schedule → first_pos t schedule < length schedule.
Proof.
  induction schedule as [|a schedule IH]; simpl.
  - by intros ?%elem_of_nil.
  - intros [->|Hin]%elem_of_cons; case_decide; try lia. apply IH in Hin. lia.
Qed.

Lemma first_pos_app_l t schedule rest :
  t ∈ i <$> schedule → first_pos t (schedule ++ rest) = first_pos t schedule.
Proof.
  induction schedule as [|a schedule IH]; simpl.
  - by intros ?%elem_of_nil.
  - intros [->|Hin]%elem_of_cons; case_decide; try done. by rewrite IH.
Qed.

Lemma first_pos_app_r t schedule rest :
  t ∉ i <$> schedule →
  first_pos t (schedule ++ rest) = length schedule + first_pos t rest.
Proof.
  induction schedule as [|a schedule IH]; simpl; [done|].
  intros Hin. apply not_elem_of_cons in Hin as [? ?].
  case_decide; [congruence|]. by rewrite IH.
Qed.

Lemma first_pos_lookup t schedule :
  t ∈ i <$> schedule →
  ∃ a, schedule !! first_pos t schedule = Some a ∧ i a = t
       ∧ t ∉ i <$> take (first_pos t schedule) schedule.
Proof.
  induction schedule as [|a schedule IH]; simpl.
  - by intros ?%elem_of_nil.
  - intros Hin. case_decide as Ha.
    + exists a. split_and!; [done..|]. simpl. apply not_elem_of_nil.
    + apply elem_of_cons in Hin as [->|Hin]; [done|].
      destruct (IH Hin) as (b & ? & ? & ?). exists b. split_and!; [done..|].
      simpl. apply not_elem_of_cons. split; [congruence|done].
Qed.

Lemma transaction_ids_first_pos schedule t u :
  [t; u] `sublist_of` transaction_ids schedule →
  first_pos t schedule < first_pos u schedule.
Proof.
  induction schedule as [|a schedule IH] using rev_ind.
  - by intros ?%sublist_nil_r.
  - rewrite transaction_ids_snoc.
    assert (Hold : [t; u] `sublist_of` transaction_ids schedule →
                   first_pos t (schedule ++ [a]) < first_pos u (schedule ++ [a])).
    { intros Hsub. pose proof (IH Hsub) as Hlt.
      assert (t ∈ transaction_ids schedule) as Ht.
      { eapply elem_of_sublist; [|done]. set_solver. }
      assert (u ∈ transaction_ids schedule) as Hu.
      { eapply elem_of_sublist; [|done]. set_solver. }
      apply elem_of_transaction_ids in Ht, Hu.
      by rewrite !first_pos_app_l. }
    case_decide as Hin; [done|].
    intros (k1 & k2 & Hk & Hk1 & Hk2)%sublist_app_r.
    destruct k2 as [|x k2].
    { rewrite app_nil_r in Hk. subst k1. auto. }
    destruct k2 as [|y k2].
    2:{ apply sublist_length in Hk2. simpl in Hk2. lia. }
    destruct k1 as [|t' [|? [|? ?]]]; simplify_eq/=.
    apply singleton_sublist_l, list_elem_of_singleton in Hk2 as ->.
    apply singleton_sublist_l, elem_of_transaction_ids in Hk1.
    rewrite first_pos_app_l by done.
    rewrite first_pos_app_r by by rewrite <-elem_of_transaction_ids.
    pose proof (first_pos_lt _ _ Hk1). lia.
Qed.

Lemma elem_of_ends schedule t :
  t ∈ (list_to_set (i <$> filter (λ a, op a = COMMIT ∨ op a = ABORT) schedule)
        : gset nat)
  ↔ commit t ∈ schedule ∨ abort t ∈ schedule.
Proof.
  rewrite elem_of_list_to_set, list_elem_of_fmap. split.
  - intros (a & -> & [Hop Hin]%list_elem_of_filter).
    destruct a; simpl in *; destruct Hop; try done; auto.
  - intros [Hin|Hin]; [exists (commit t)|exists (abort t)];
      (split; [done|]); apply list_elem_of_filter; simpl; auto.
Qed.

(** C7.  [add_commits schedule] is [schedule] followed by one synthetic
    commit for each transaction of the schedule that has neither a commit
    nor an abort, and for no other transaction; the synthetic commits come
    after the last original action, in the order in which the transactions
    first appear. *)
Theorem add_commits_closes_open_transactions schedule :
  ∃ cs : list nat,
    add_commits schedule = schedule ++ (commit <$> cs)
    ∧ NoDup cs
    ∧ (∀ t, t ∈ cs ↔
            t ∈ i <$> schedule ∧ (commit t ∉ schedule) ∧ (abort t ∉ schedule))
    ∧ (∀ t u, [t; u] `sublist_of` cs →
              first_pos t schedule < first_pos u schedule).
Proof.
  eexists. split; [reflexivity|]. split_and!.
  - apply NoDup_filter, NoDup_transaction_ids.
  - intros t. rewrite list_elem_of_filter, elem_of_ends, elem_of_transaction_ids.
    tauto.
  - intros t u Hsub. apply transaction_ids_first_pos.
    etrans; [exact Hsub|]. apply sublist_filter.
Qed.

Lemma elem_of_aborteds schedule t :
  t ∈ (list_to_set (i <$> filter (λ a, op a = ABORT) schedule) : gset nat)
  ↔ abort t ∈ schedule.
Proof.
  rewrite elem_of_list_to_set, list_elem_of_fmap. split.
  - intros (a & -> & [Hop Hin]%list_elem_of_filter). by destruct a.
  - intros Hin. exists (abort t). split; [done|].
    by apply list_elem_of_filter.
Qed.

Lemma elem_of_drop_aborts schedule a :
  a ∈ drop_aborts schedule ↔ a ∈ schedule ∧ abort (i a) ∉ schedule.
Proof.
  unfold drop_aborts. rewrite list_elem_of_filter, elem_of_aborteds. tauto.
Qed.

Lemma drop_aborts_no_abort schedule t : abort t ∉ drop_aborts schedule.
Proof. intros [? ?]%elem_of_drop_aborts. done. Qed.

Lemma filter_Forall_id {A} (P : A → Prop) `{!∀ x, Decision (P x)} (l : list A) :
  Forall P l → filter P l = l.
Proof.
  induction 1 as [|x l Hx _ IH]; [done|].
  by rewrite filter_cons_True, IH.
Qed.

Lemma drop_aborts_id schedule :
  (∀ t, abort t ∉ schedule) → drop_aborts schedule = schedule.
Proof.
  intros Hno. unfold drop_aborts. apply filter_Forall_id, Forall_forall.
  intros a _. rewrite elem_of_aborteds. apply Hno.
Qed.

Lemma drop_aborts_idemp schedule :
  drop_aborts (drop_aborts schedule) = drop_aborts schedule.
Proof. apply drop_aborts_id, drop_aborts_no_abort. Qed.

Lemma conflict_graph_drop_aborts schedule :
  conflict_graph (drop_aborts schedule) = conflict_graph schedule.
Proof. unfold conflict_graph. by rewrite drop_aborts_idemp. Qed.

(** C5.  A conflict-serializable schedule is view-serializable: the call
    returns [True] through its first shortcut. *)
Theorem conflict_serializable_view_serializable schedule :
  conflict_serializable schedule = true →
  view_serializable schedule = Ok true.
Proof.
  intros Hcs. unfold view_serializable.
  assert (conflict_serializable (drop_aborts schedule) = true) as ->; [|done].
  unfold conflict_serializable in *. by rewrite conflict_graph_drop_aborts.
Qed.

(** The theorem applied to [schedule6]. *)
Lemma conflict_serializable_view_serializable_witness :
  view_serializable schedule6 = Ok true.
Proof.
  apply conflict_serializable_view_serializable. vm_compute. reflexivity.
Defined.

Section scan_lemmas.
Context {St : Type} (step : St → Action → option St).

Lemma scan_app st l1 l2 :
  scan step st (l1 ++ l2) = scan step st l1 ≫= λ st', scan step st' l2.
Proof.
  revert st. induction l1 as [|a l1 IH]; intros st; simpl; [done|].
  destruct (step st a) as [st'|]; simpl; [apply IH|done].
Qed.

Lemma scan_app_Some st l1 l2 st2 :
  scan step st (l1 ++ l2) = Some st2 →
  ∃ st1, scan step st l1 = Some st1 ∧ scan step st1 l2 = Some st2.
Proof.
  rewrite scan_app. destruct (scan step st l1) as [st1|]; [|done]. eauto.
Qed.

Lemma scan_cons_Some st a l st2 :
  scan step st (a :: l) = Some st2 →
  ∃ st1, step st a = Some st1 ∧ scan step st1 l = Some st2.
Proof. simpl. destruct (step st a) as [st1|]; [|done]. eauto. Qed.
End scan_lemmas.

(** strict ⇒ aca *)
Lemma strict_step_aca_step st a st' :
  strict_step st a = Some st' → aca_step st a = Some st'.
Proof.
  destruct st as [lw com]. destruct a as [t o|t o| |]; simpl; try done.
  - unfold strict_check. destruct (last_writer lw o) as [j|]; [|done].
    case_bool_decide; [done|]. by rewrite decide_False.
  - unfold strict_check. destruct (last_writer lw o) as [j|].
    + case_bool_decide; [done|]. done.
    + done.
Qed.

Lemma strict_scan_aca_scan l st :
  is_Some (scan strict_step st l) → is_Some (scan aca_step st l).
Proof.
  revert st. induction l as [|a l IH]; intros st; simpl; [done|].
  destruct (strict_step st a) as [st'|] eqn:Hstep; simpl.
  - rewrite (strict_step_aca_step _ _ _ Hstep). simpl. apply IH.
  - by intros [? ?].
Qed.

Lemma aca_step_recoverable_step lw com rf a lw' com' :
  read_from_committed rf com →
  aca_step (lw, com) a = Some (lw', com') →
  ∃ rf', recoverable_step (mk_recoverable_state lw rf com) a
         = Some (mk_recoverable_state lw' rf' com')
         ∧ read_from_committed rf' com'.
Proof.
  intros Hinv. destruct a as [t o|t o|t|t]; simpl.
  - destruct (last_writer lw o) as [j|]; [|intros [= <- <-]; eauto].
    case_decide as Hj; [done|]. intros [= <- <-].
    case_decide as Hjt; [|eauto].
    eexists. split; [done|]. intros t'.
    destruct (decide (t = t')) as [<-|Hne].
    + rewrite lookup_total_insert_eq. specialize (Hinv t).
      assert (j ∈ com).
      { destruct (decide (j ∈ com)) as [?|Hnot]; [done|].
        exfalso. apply Hj. done. }
      apply union_subseteq. split; [by apply singleton_subseteq_l|done].
    + rewrite lookup_total_insert_ne by done. apply Hinv.
  - intros [= <- <-]. eauto.
  - intros [= <- <-]. rewrite decide_True by apply Hinv.
    eexists. split; [done|]. intros t'.
    destruct (decide (t = t')) as [<-|Hne].
    + rewrite lookup_total_insert_eq. by apply union_subseteq_r'.
    + rewrite lookup_total_insert_ne by done. by apply union_subseteq_r'.
  - intros [= <- <-]. eauto.
Qed.

Lemma aca_scan_recoverable_scan l lw com rf :
  read_from_committed rf com →
  is_Some (scan aca_step (lw, com) l) →
  is_Some (scan recoverable_step (mk_recoverable_state lw rf com) l).
Proof.
  revert lw com rf.
  induction l as [|a l IH]; intros lw com rf Hinv; cbn [scan]; [done|].
  destruct (aca_step (lw, com) a) as [[lw' com']|] eqn:Hstep; cbn [mbind option_bind].
  - destruct (aca_step_recoverable_step _ _ _ _ _ _ Hinv Hstep)
      as (rf' & -> & Hinv').
    cbn [mbind option_bind]. by apply IH.
  - by intros [? ?].
Qed.

(** C4.  [strict] implies [aca], and [aca] implies [recoverable]. *)
Theorem strict_aca_recoverable schedule :
  (strict schedule = true → aca schedule = true)
  ∧ (aca schedule = true → recoverable schedule = true).
Proof.
  unfold strict, aca, recoverable. split.
  - intros Hs%bool_decide_eq_true. apply bool_decide_eq_true.
    by apply strict_scan_aca_scan.
  - intros Ha%bool_decide_eq_true. apply bool_decide_eq_true.
    apply aca_scan_recoverable_scan; [|done].
    intros t. rewrite lookup_total_empty. done.
Qed.

(** The theorem applied to [schedule6], which is strict. *)
Lemma strict_aca_recoverable_witness :
  strict schedule6 = true ∧ aca schedule6 = true
  ∧ recoverable schedule6 = true.
Proof.
  assert (strict schedule6 = true) as Hs by (vm_compute; reflexivity).
  pose proof (proj1 (strict_aca_recoverable schedule6) Hs) as Ha.
  pose proof (proj2 (strict_aca_recoverable schedule6) Ha) as Hr.
  exact (conj Hs (conj Ha Hr)).
Defined.

Lemma recoverable_step_written_by st a st' :
  recoverable_step st a = Some st' →
  written_by st' = history_step (written_by st) a.
Proof.
  destruct st as [wb rf com]. destruct a as [t o|t o|t|t]; simpl.
  - destruct (last_writer wb o) as [j|]; [|by intros [= <-]].
    case_decide; by intros [= <-].
  - by intros [= <-].
  - case_decide; [|done]. by intros [= <-].
  - by intros [= <-].
Qed.

Lemma recoverable_scan_written_by l st st' :
  scan recoverable_step st l = Some st' →
  written_by st' = foldl history_step (written_by st) l.
Proof.
  revert st. induction l as [|a l IH]; intros st.
  - by intros [= <-].
  - intros (st1 & Hstep & Hscan)%scan_cons_Some. simpl.
    rewrite <-(recoverable_step_written_by _ _ _ Hstep). by apply IH.
Qed.

Lemma recoverable_step_read_from st a st' u :
  recoverable_step st a = Some st' →
  read_from st !!! u ⊆ read_from st' !!! u.
Proof.
  destruct st as [wb rf com]. destruct a as [t o|t o|t|t]; simpl.
  - destruct (last_writer wb o) as [j|]; [|by intros [= <-]].
    case_decide; [|by intros [= <-]]. intros [= <-]. simpl.
    destruct (decide (t = u)) as [->|Hne].
    + rewrite lookup_total_insert_eq. apply union_subseteq_r.
    + by rewrite lookup_total_insert_ne.
  - by intros [= <-].
  - case_decide; [|done]. intros [= <-]. simpl.
    destruct (decide (t = u)) as [->|Hne].
    + by rewrite lookup_total_insert_eq.
    + by rewrite lookup_total_insert_ne.
  - by intros [= <-].
Qed.

Lemma recoverable_scan_read_from l st st' u :
  scan recoverable_step st l = Some st' →
  read_from st !!! u ⊆ read_from st' !!! u.
Proof.
  revert st. induction l as [|a l IH]; intros st.
  - by intros [= <-].
  - intros (st1 & Hstep & Hscan)%scan_cons_Some.
    etrans; [by eapply recoverable_step_read_from|by apply IH].
Qed.

Lemma recoverable_step_committed st a st' t :
  recoverable_step st a = Some st' →
  t ∈ committed st' → t ∈ committed st ∨ a = commit t.
Proof.
  destruct st as [wb rf com]. destruct a as [t' o|t' o|t'|t']; simpl.
  - destruct (last_writer wb o) as [j|]; [|intros [= <-]; auto].
    case_decide; intros [= <-]; auto.
  - intros [= <-]; auto.
  - case_decide; [|done]. intros [= <-]. simpl.
    intros [->%elem_of_singleton|?]%elem_of_union; auto.
  - intros [= <-]; auto.
Qed.

Lemma recoverable_scan_committed l st st' t :
  scan recoverable_step st l = Some st' →
  t ∈ committed st' → t ∈ committed st ∨ commit t ∈ l.
Proof.
  revert st. induction l as [|a l IH]; intros st.
  - intros [= <-]; auto.
  - intros (st1 & Hstep & Hscan)%scan_cons_Some Hin.
    destruct (IH _ Hscan Hin) as [Hin1|?]; [|right; by right].
    destruct (recoverable_step_committed _ _ _ _ Hstep Hin1) as [?| ->];
      [by left|right; by left].
Qed.

Lemma recoverable_read_records st u o t :
  last_writer (written_by st) o = Some t → t ≠ u →
  ∃ st', recoverable_step st (r u o) = Some st' ∧ t ∈ read_from st' !!! u.
Proof.
  destruct st as [wb rf com]. simpl. intros -> Hne.
  rewrite decide_True by done. eexists. split; [done|]. simpl.
  rewrite lookup_total_insert_eq. apply elem_of_union_l, elem_of_singleton. done.
Qed.

(** purge *)
Lemma purge_lookup_total t ids o :
  purge t ids !!! o = filter (λ j, j ≠ t) (ids !!! o).
Proof.
  unfold purge. rewrite !lookup_total_alt, lookup_fmap.
  by destruct (ids !! o).
Qed.

Lemma history_step_absent t ids a :
  (∀ o, a ≠ w t o) →
  (∀ o, t ∉ ids !!! o) → ∀ o, t ∉ history_step ids a !!! o.
Proof.
  intros Hnw Habs o. destruct a as [t' o'|t' o'|t'|t']; simpl; try done.
  - destruct (decide (o' = o)) as [->|Hne].
    + rewrite lookup_total_insert_eq. rewrite elem_of_app, list_elem_of_singleton.
      intros [?| ->]; [by eapply Habs|by eapply Hnw].
    + by rewrite lookup_total_insert_ne.
  - rewrite purge_lookup_total. intros [_ ?]%list_elem_of_filter. by eapply Habs.
Qed.

Lemma history_absent t l ids :
  (∀ o, w t o ∉ l) →
  (∀ o, t ∉ ids !!! o) → ∀ o, t ∉ foldl history_step ids l !!! o.
Proof.
  revert ids. induction l as [|a l IH]; intros ids Hnw Habs; simpl; [done|].
  apply IH.
  - intros o Hin. apply (Hnw o). by right.
  - apply history_step_absent; [|done]. intros o ->. apply (Hnw o). by left.
Qed.

Lemma purge_absent t ids o : t ∉ purge t ids !!! o.
Proof. rewrite purge_lookup_total. by intros [? _]%list_elem_of_filter. Qed.

Lemma last_writer_elem_of ids o t :
  last_writer ids o = Some t → t ∈ ids !!! o.
Proof.
  unfold last_writer. rewrite lookup_total_alt.
  destruct (ids !! o) as [l|]; simpl; [|done].
  intros Hl. apply last_Some in Hl as [l' ->]. set_solver.
Qed.

Lemma write_history_after_abort pre t post o :
  (∀ o', w t o' ∉ post) →
  last_writer (write_history (pre ++ abort t :: post)) o ≠ Some t.
Proof.
  intros Hnw Hlast%last_writer_elem_of. revert Hlast.
  unfold write_history. rewrite foldl_app. simpl.
  apply history_absent; [done|]. intros o'. apply purge_absent.
Qed.

(** C6.  In [recoverable], an abort of [t] purges [t] from every write
    history and leaves [read_from] as it is, so that no later read sees [t]
    as the most recent writer (as long as [t] does not write again);
    but when [u] has read an object whose most recent writer was another
    transaction [t], and [t] aborts and never commits before the commit of
    [u], the loop returns [False] at that commit, if not earlier.  The
    most recent writer is that of [written_by] in the loop, which is
    [write_history] of the actions processed so far. *)
Theorem recoverable_abort_keeps_read_from schedule pre mid post u t o :
  add_commits schedule = pre ++ r u o :: mid ++ commit u :: post →
  last_writer (write_history pre) o = Some t →
  t ≠ u →
  abort t ∈ mid →
  commit t ∉ pre ++ mid →
  (∀ l st, scan recoverable_step recoverable_init l = Some st →
           written_by st = write_history l)
  ∧ (∀ st, ∃ st', recoverable_step st (abort t) = Some st'
                  ∧ (∀ o', t ∉ written_by st' !!! o')
                  ∧ read_from st' = read_from st
                  ∧ committed st' = committed st)
  ∧ (∀ l1 l2 o', (∀ o'', w t o'' ∉ l2) →
                 last_writer (write_history (l1 ++ abort t :: l2)) o' ≠ Some t)
  ∧ (∀ st, scan recoverable_step recoverable_init (pre ++ r u o :: mid)
           = Some st →
           recoverable_step st (commit u) = None)
  ∧ recoverable schedule = false.
Proof.
  intros Hsched Hlast Hne Habort Hnocommit.
  assert (∀ st, scan recoverable_step recoverable_init (pre ++ r u o :: mid)
                = Some st → recoverable_step st (commit u) = None) as Hfail.
  { intros st3 (st1 & Hpre & (st2 & Hread & Hmid)%scan_cons_Some)%scan_app_Some.
    pose proof (recoverable_scan_written_by _ _ _ Hpre) as Hwb. simpl in Hwb.
    fold (write_history pre) in Hwb.
    destruct (recoverable_read_records st1 u o t) as (st2' & Hread' & Hrf);
      [by rewrite Hwb|done|].
    rewrite Hread in Hread'. injection Hread' as <-.
    pose proof (recoverable_scan_read_from _ _ _ u Hmid t Hrf) as Hrf3.
    destruct st3 as [wb3 rf3 com3]. simpl in *.
    case_decide as Hsub; [|done]. exfalso.
    assert (t ∈ com3) as Hcom by by apply Hsub.
    assert (scan recoverable_step recoverable_init (pre ++ r u o :: mid)
            = Some (mk_recoverable_state wb3 rf3 com3)) as Hall.
    { rewrite scan_app, Hpre. simpl. rewrite Hread. simpl. done. }
    destruct (recoverable_scan_committed _ _ _ t Hall Hcom) as [Hin|Hin].
    - by apply not_elem_of_empty in Hin.
    - apply Hnocommit. rewrite elem_of_app in Hin |- *.
      destruct Hin as [?|Hin]; [by left|].
      apply elem_of_cons in Hin as [?|?]; [done|by right]. }
  split_and!.
  - intros l st Hscan. by apply recoverable_scan_written_by in Hscan.
  - intros [wb rf com]. eexists. split; [done|]. simpl. split_and!; [|done..].
    intros o'. apply purge_absent.
  - intros l1 l2 o'. apply write_history_after_abort.
  - done.
  - unfold recoverable. apply bool_decide_eq_false. intros [st4 Hscan].
    rewrite Hsched in Hscan.
    replace (pre ++ r u o :: mid ++ commit u :: post)
      with ((pre ++ r u o :: mid) ++ commit u :: post) in Hscan
      by by rewrite <-app_assoc.
    apply scan_app_Some in Hscan as (st3 & H3 & (? & Hstep & _)%scan_cons_Some).
    by rewrite (Hfail _ H3) in Hstep.
Qed.

(** The theorem applied to [abort_after_read]. *)
Lemma recoverable_abort_keeps_read_from_witness :
  recoverable abort_after_read = false.
Proof.
  refine (proj2 (proj2 (proj2 (proj2
    (recoverable_abort_keeps_read_from abort_after_read
       [w 1 "X"] [abort 1] [] 2 1 "X" _ _ _ _ _))))).
  - reflexivity.
  - reflexivity.
  - lia.
  - apply list_elem_of_here.
  - apply (bool_decide_unpack (commit 1 ∉ [w 1 "X"] ++ [abort 1])).
    vm_compute. exact I.
Defined.

Section chain_lemmas.
Context {A : Type} `{EqDecision A} (R : relation A).

Lemma chain_app_r l1 l2 : chain R (l1 ++ l2) → chain R l2.
Proof.
  induction l1 as [|x l1 IH]; [done|]. simpl.
  destruct (l1 ++ l2) eqn:E; [|by intros [_ ?]; apply IH].
  apply app_eq_nil in E as [_ ->]. done.
Qed.

Lemma tc_chain x y :
  tc R x y → ∃ p z, chain R (x :: p) ∧ last (x :: p) = Some z ∧ R z y.
Proof.
  induction 1 as [x y Hxy|x z y Hxz _ (p & z' & Hp & Hlast & Hz)].
  - exists [], x. done.
  - exists (z :: p), z'. split_and!; [done| |done].
    by rewrite last_cons_cons.
Qed.

Lemma chain_rtc x p z :
  chain R (x :: p) → last (x :: p) = Some z → rtc R x z.
Proof.
  revert x. induction p as [|y p IH]; intros x.
  - intros _ [= ->]. done.
  - intros [Hxy Hp]. rewrite last_cons_cons. intros Hlast.
    eapply rtc_l; [done|]. by apply IH.
Qed.

(** A walk can be cut down to one without a repeated node. *)
Lemma chain_shorten x p :
  chain R (x :: p) →
  ∃ p', chain R (x :: p') ∧ NoDup (x :: p') ∧ p' ⊆ p
        ∧ last (x :: p') = last (x :: p).
Proof.
  revert x. induction p as [|y p IH]; intros x.
  - intros _. exists []. split_and!; [done| |done..].
    apply NoDup_singleton.
  - intros [Hxy Hp]. destruct (IH y Hp) as (p1 & Hp1 & Hnd & Hsub & Hlast).
    destruct (decide (x ∈ y :: p1)) as [Hin|Hnotin].
    + apply list_elem_of_split in Hin as (l1 & l2 & Heq).
      exists l2. split_and!.
      * apply (chain_app_r l1). by rewrite <-Heq.
      * rewrite Heq in Hnd. by apply NoDup_app in Hnd as (_ & _ & ?).
      * intros z Hz. right. apply Hsub.
        assert (z ∈ y :: p1) as Hz'.
        { rewrite Heq. apply elem_of_app. right. by right. }
        apply elem_of_cons in Hz' as [->|?]; [|done].
        exfalso. rewrite Heq in Hnd.
        destruct l1 as [|y' l1]; simplify_eq/=.
        -- apply NoDup_cons in Hnd as [Hnd _]. done.
        -- apply NoDup_cons in Hnd as [Hnd _]. apply Hnd.
           apply elem_of_app. right. by right.
      * rewrite last_cons_cons, <-Hlast, Heq.
        rewrite (last_app l1 (x :: l2)).
        by destruct (last (x :: l2)) eqn:E; [|by rewrite last_cons in E; destruct (last l2)].
    + exists (y :: p1). split_and!.
      * done.
      * by apply NoDup_cons.
      * intros z [->|?]%elem_of_cons; [by left|right; by apply Hsub].
      * by rewrite !last_cons_cons.
Qed.

Lemma chain_within_elem_of ns x y p z :
  chain (within R ns) (x :: y :: p) → z ∈ x :: y :: p → z ∈ ns.
Proof.
  revert x y. induction p as [|y' p IH]; intros x y.
  - intros [(_ & ? & ?) _]. intros [->|[->|[]%elem_of_nil]%elem_of_cons]%elem_of_cons; done.
  - intros [(_ & ? & ?) Hp]. intros [->|Hz]%elem_of_cons; [done|].
    by eapply IH.
Qed.

Lemma chain_mono (R' : relation A) l :
  (∀ x y, R x y → R' x y) → chain R l → chain R' l.
Proof.
  intros HR. induction l as [|x [|y l] IH]; simpl; [done..|].
  intros [? ?]. split; [by apply HR|by apply IH].
Qed.

(** A cycle among [v :: rest] goes through [v] or stays within [rest]. *)
Lemma tc_within_cons v rest x y :
  tc (within R (v :: rest)) x y →
  (rtc (within R (v :: rest)) x v ∧ rtc (within R (v :: rest)) v y)
  ∨ tc (within R rest) x y.
Proof.
  assert (∀ a b, within R (v :: rest) a b → a ≠ v → b ≠ v →
                 within R rest a b) as Hrest.
  { intros a b (? & Ha & Hb) ? ?.
    apply elem_of_cons in Ha as [?|?]; [done|].
    apply elem_of_cons in Hb as [?|?]; [done|]. done. }
  induction 1 as [x y Hxy|x z y Hxz Hzy IH].
  - destruct (decide (x = v)) as [->|Hx]; [left; split; [done|by apply rtc_once]|].
    destruct (decide (y = v)) as [->|Hy]; [left; split; [by apply rtc_once|done]|].
    right. apply tc_once. by apply Hrest.
  - destruct (decide (x = v)) as [->|Hx].
    { left. split; [done|]. apply tc_rtc. by eapply tc_l. }
    destruct IH as [[Hzv Hvy]|Hzy'].
    { left. split; [by eapply rtc_l|done]. }
    destruct (decide (z = v)) as [->|Hz].
    { left. split; [by apply rtc_once|by apply tc_rtc]. }
    right. eapply tc_l; [|done]. by apply Hrest.
Qed.

Lemma tc_within_cons_cycle v rest x :
  tc (within R (v :: rest)) x x →
  tc (within R (v :: rest)) v v ∨ tc (within R rest) x x.
Proof.
  intros Hxx. destruct (tc_within_cons _ _ _ _ Hxx) as [[Hxv Hvx]|?]; [|by right].
  left. apply rtc_tc in Hvx as [->|Hvx]; [done|]. by eapply tc_rtc_r.
Qed.

Lemma tc_within_nil x y : ¬ tc (within R []) x y.
Proof. intros Htc. destruct Htc as [? ? (_ & []%elem_of_nil & _)|? ? ? (_ & []%elem_of_nil & _)]. Qed.

Lemma tc_within_weaken ns x y : tc (within R ns) x y → tc R x y.
Proof.
  induction 1 as [? ? (? & _)|? ? ? (? & _)]; [by apply tc_once|by eapply tc_l].
Qed.
End chain_lemmas.

Section simple_cycles_lemmas.
Context {N : Type} `{Countable N} (G : nx.DiGraph N).

Lemma has_edge_edge_rel x y : nx.has_edge G x y = true ↔ edge_rel G x y.
Proof. unfold nx.has_edge. apply bool_decide_eq_true. Qed.

Lemma circuits_from_sound root fuel avail x q :
  q ∈ nx.circuits_from G root fuel avail x → tc (edge_rel G) x root.
Proof.
  revert avail x q. induction fuel as [|fuel IH]; intros avail x q; simpl.
  - rewrite app_nil_r. destruct (nx.has_edge G x root) eqn:E.
    + intros _. by apply tc_once, has_edge_edge_rel.
    + by intros ?%elem_of_nil.
  - intros [Hq|Hq]%elem_of_app.
    + destruct (nx.has_edge G x root) eqn:E; [|by apply elem_of_nil in Hq].
      by apply tc_once, has_edge_edge_rel.
    + apply list_elem_of_bind in Hq as (y & Hq & _).
      destruct (nx.has_edge G x y) eqn:E; [|by apply elem_of_nil in Hq].
      apply list_elem_of_fmap in Hq as (q' & -> & Hq').
      eapply tc_l; [by apply has_edge_edge_rel|]. by eapply IH.
Qed.

Lemma circuits_from_complete root fuel avail x q z :
  chain (edge_rel G) (x :: q) → NoDup q → q ⊆ avail → length q ≤ fuel →
  last (x :: q) = Some z → edge_rel G z root →
  q ∈ nx.circuits_from G root fuel avail x.
Proof.
  revert fuel avail x. induction q as [|y q IH]; intros fuel avail x.
  - intros _ _ _ _ [= <-] Hedge%has_edge_edge_rel.
    destruct fuel; simpl; rewrite Hedge; by left.
  - intros [Hxy Hq] [Hy Hnd]%NoDup_cons Hsub Hlen Hlast Hedge.
    destruct fuel as [|fuel]; [simpl in Hlen; lia|]. simpl.
    apply elem_of_app. right. apply list_elem_of_bind. exists y. split.
    + apply has_edge_edge_rel in Hxy. rewrite Hxy.
      apply list_elem_of_fmap. exists q. split; [done|].
      apply (IH _ _ _ Hq Hnd); [|simpl in Hlen; lia|by rewrite last_cons_cons in Hlast|done].
      intros y' Hy'. apply list_elem_of_filter. split.
      * intros ->. done.
      * apply Hsub. by right.
    + apply Hsub. by left.
Qed.

Lemma cycles_in_sound ns c :
  c ∈ nx.cycles_in G ns → has_directed_cycle G.
Proof.
  induction ns as [|v rest IH]; simpl; [by intros ?%elem_of_nil|].
  intros [Hc|Hc]%elem_of_app; [|by apply IH].
  apply list_elem_of_fmap in Hc as (q & _ & Hq).
  exists v. by eapply circuits_from_sound.
Qed.

Lemma cycles_in_complete ns x :
  tc (within (edge_rel G) ns) x x → nx.cycles_in G ns ≠ [].
Proof.
  revert x. induction ns as [|v rest IH]; intros x Hxx.
  - by apply tc_within_nil in Hxx.
  - simpl. apply tc_within_cons_cycle in Hxx as [Hvv|Hxx].
    2:{ intros [_ E]%app_eq_nil. by eapply IH. }
    apply tc_chain in Hvv as (p & z & Hp & Hlast & Hzv).
    destruct (chain_shorten _ _ _ Hp) as (q & Hq & Hnd & Hsub & Hlastq).
    apply NoDup_cons in Hnd as [Hv Hnd].
    assert (q ⊆ rest) as Hqrest.
    { intros y Hy. destruct q as [|y0 q]; [by apply elem_of_nil in Hy|].
      assert (y ∈ v :: rest) as Hin.
      { eapply (chain_within_elem_of (edge_rel G)); [exact Hq|]. by right. }
      apply elem_of_cons in Hin as [->|?]; [done|done]. }
    assert (q ∈ nx.circuits_from G v (length rest) rest v) as Hin.
    { eapply circuits_from_complete; [| done | done | | by rewrite Hlastq | by destruct Hzv].
      - eapply chain_mono; [|done]. by intros ? ? [? _].
      - apply submseteq_length, NoDup_submseteq; done. }
    intros [E _]%app_eq_nil. apply fmap_nil_inv in E. rewrite E in Hin.
    by apply elem_of_nil in Hin.
Qed.

Lemma tc_edges_within x y :
  edges_in_nodes G →
  tc (edge_rel G) x y →
  tc (within (edge_rel G) (elements (nx.nodes G))) x y.
Proof.
  intros Hclosed.
  assert (∀ a b, edge_rel G a b →
                 within (edge_rel G) (elements (nx.nodes G)) a b) as Hin.
  { intros a b Hab. destruct (Hclosed _ _ Hab). split_and!; [done|..];
      by apply elem_of_elements. }
  induction 1; [apply tc_once|eapply tc_l]; eauto.
Qed.

Lemma simple_cycles_nil_iff :
  edges_in_nodes G →
  nx.simple_cycles G = [] ↔ ¬ has_directed_cycle G.
Proof.
  intros Hclosed. unfold nx.simple_cycles. split.
  - intros Hnil [v Hv]. apply (tc_edges_within _ _ Hclosed) in Hv.
    by eapply cycles_in_complete.
  - intros Hacyclic.
    destruct (nx.cycles_in G (elements (nx.nodes G))) as [|c cs] eqn:E; [done|].
    exfalso. apply Hacyclic. apply (cycles_in_sound (elements (nx.nodes G)) c).
    rewrite E. by left.
Qed.
End simple_cycles_lemmas.

Lemma sublist_pair_cons {A} (a b c : A) l :
  [a; b] `sublist_of` c :: l ↔ (a = c ∧ b ∈ l) ∨ [a; b] `sublist_of` l.
Proof.
  rewrite sublist_cons_r. split.
  - intros [?|(l' & [= <- <-] & Hb)]; [by right|].
    left. split; [done|]. by apply singleton_sublist_l.
  - intros [[-> Hb]|?]; [|by left]. right. exists [b]. split; [done|].
    by apply singleton_sublist_l.
Qed.

Lemma sublist_filter_iff {A} (P : A → Prop) `{!∀ x, Decision (P x)} (k l : list A) :
  k `sublist_of` filter P l ↔ k `sublist_of` l ∧ Forall P k.
Proof.
  split.
  - intros Hsub. split; [etrans; [done|apply sublist_filter]|].
    apply Forall_forall. intros x Hx.
    eapply elem_of_sublist in Hx; [|done]. by apply list_elem_of_filter in Hx as [? _].
  - intros [Hsub HP]. induction Hsub as [|x k l Hsub IH|x k l Hsub IH].
    + done.
    + apply Forall_cons in HP as [? ?].
      rewrite filter_cons_True by done. apply sublist_skip. by apply IH.
    + rewrite filter_cons. destruct (decide (P x)); [apply sublist_cons|]; by apply IH.
Qed.

Lemma add_nodes_from_nodes {N} `{Countable N} (G : nx.DiGraph N) ns :
  nx.nodes (nx.add_nodes_from G ns) = list_to_set ns ∪ nx.nodes G.
Proof.
  unfold nx.add_nodes_from. revert G.
  induction ns as [|n ns IH]; intros G; simpl.
  - by rewrite union_empty_l_L.
  - rewrite IH. simpl.
    by rewrite (assoc_L (∪)), (comm_L (∪) (list_to_set ns)).
Qed.

Lemma add_nodes_from_edges {N} `{Countable N} (G : nx.DiGraph N) ns :
  nx.edges (nx.add_nodes_from G ns) = nx.edges G.
Proof.
  unfold nx.add_nodes_from. revert G.
  induction ns as [|n ns IH]; intros G; simpl; [done|]. by rewrite IH.
Qed.

Lemma conflict_test_spec a b :
  bool_decide (obj a = obj b) && bool_decide (i a ≠ i b)
    && (bool_decide (op a = WRITE) || bool_decide (op b = WRITE)) = true
  ↔ conflict_pair a b.
Proof.
  unfold conflict_pair.
  rewrite !andb_true_iff, orb_true_iff, !bool_decide_eq_true. tauto.
Qed.

Lemma conflict_edges_from_edges G a rest x y :
  (x, y) ∈ nx.edges (conflict_edges_from G a rest) ↔
  (x, y) ∈ nx.edges G
  ∨ (x = i a ∧ ∃ b, b ∈ rest ∧ y = i b ∧ conflict_pair a b).
Proof.
  unfold conflict_edges_from. revert G.
  induction rest as [|b rest IH]; intros G; simpl.
  - split; [by left|]. intros [?|(_ & b & []%elem_of_nil & _)]. done.
  - rewrite IH. clear IH.
    destruct (_ && _ && _) eqn:E.
    + apply conflict_test_spec in E. simpl.
      rewrite elem_of_union, elem_of_singleton. split.
      * intros [[[= -> ->]|?]|(-> & b' & ? & ? & ?)].
        -- right. split; [done|]. exists b. split_and!; [by left|done..].
        -- by left.
        -- right. split; [done|]. exists b'. split_and!; [by right|done..].
      * intros [?|(-> & b' & [->|?]%elem_of_cons & -> & ?)].
        -- left. by right.
        -- left. by left.
        -- right. split; [done|]. by exists b'.
    + assert (¬ conflict_pair a b) as Hno.
      { intros Hc%conflict_test_spec. congruence. }
      split.
      * intros [?|(-> & b' & ? & ? & ?)]; [by left|].
        right. split; [done|]. exists b'. split_and!; [by right|done..].
      * intros [?|(-> & b' & [->|?]%elem_of_cons & -> & ?)]; [by left|done|].
        right. split; [done|]. by exists b'.
Qed.

Lemma conflict_edges_from_nodes G a rest n :
  n ∈ nx.nodes (conflict_edges_from G a rest) →
  n ∈ nx.nodes G ∨ n ∈ i <$> a :: rest.
Proof.
  unfold conflict_edges_from. revert G.
  induction rest as [|b rest IH]; intros G; simpl; [by left|].
  intros Hn. apply IH in Hn as [Hn|Hn].
  - destruct (_ && _ && _); [|by left]. simpl in Hn.
    apply elem_of_union in Hn as [Hn|?]; [|by left].
    right. apply elem_of_union in Hn as [->%elem_of_singleton| ->%elem_of_singleton].
    + by left.
    + right. by left.
  - right. simpl in Hn. apply elem_of_cons in Hn as [->|?]; [by left|].
    right. by right.
Qed.

Lemma conflict_edges_from_nodes_mono G a rest n :
  n ∈ nx.nodes G → n ∈ nx.nodes (conflict_edges_from G a rest).
Proof.
  unfold conflict_edges_from. revert G.
  induction rest as [|b rest IH]; intros G; simpl; [done|].
  intros Hn. apply IH. destruct (_ && _ && _); [|done]. simpl.
  by apply elem_of_union_r.
Qed.

Lemma conflict_edges_edges G schedule x y :
  (x, y) ∈ nx.edges (conflict_edges G schedule) ↔
  (x, y) ∈ nx.edges G
  ∨ ∃ a b, [a; b] `sublist_of` schedule ∧ i a = x ∧ i b = y
           ∧ conflict_pair a b.
Proof.
  revert G. induction schedule as [|c rest IH]; intros G; simpl.
  - split; [by left|]. intros [?|(a & b & Hsub%sublist_nil_r & _)]; done.
  - rewrite IH, conflict_edges_from_edges. split.
    + intros [[?|(-> & b & ? & -> & ?)]|(a & b & ? & ?)].
      * by left.
      * right. exists c, b. split_and!; [|done..].
        apply sublist_pair_cons. by left.
      * right. exists a, b. split; [|done]. apply sublist_pair_cons. by right.
    + intros [?|(a & b & [[-> ?]|?]%sublist_pair_cons & <- & <- & ?)].
      * left. by left.
      * left. right. split; [done|]. by exists b.
      * right. by exists a, b.
Qed.

Lemma conflict_edges_nodes_inv G schedule n :
  n ∈ nx.nodes (conflict_edges G schedule) →
  n ∈ nx.nodes G ∨ n ∈ i <$> schedule.
Proof.
  revert G. induction schedule as [|c rest IH]; intros G; simpl; [by left|].
  intros [Hn|Hn]%IH; [|right; by right].
  apply conflict_edges_from_nodes in Hn as [?|?]; [by left|by right].
Qed.

Lemma conflict_edges_nodes_mono G schedule n :
  n ∈ nx.nodes G → n ∈ nx.nodes (conflict_edges G schedule).
Proof.
  revert G. induction schedule as [|c rest IH]; intros G Hn; simpl; [done|].
  by apply IH, conflict_edges_from_nodes_mono.
Qed.

Lemma conflict_graph_nodes schedule t :
  t ∈ nx.nodes (conflict_graph schedule) ↔
  t ∈ i <$> schedule ∧ abort t ∉ schedule.
Proof.
  unfold conflict_graph.
  assert (t ∈ transaction_ids (drop_aborts schedule) ↔
          t ∈ i <$> schedule ∧ abort t ∉ schedule) as Hids.
  { rewrite elem_of_transaction_ids, !list_elem_of_fmap. split.
    - intros (a & -> & [? ?]%elem_of_drop_aborts). split; [by exists a|done].
    - intros [(a & -> & ?) ?]. exists a. split; [done|].
      by apply elem_of_drop_aborts. }
  rewrite <-Hids. split.
  - intros [Hn|Hn]%conflict_edges_nodes_inv.
    + rewrite add_nodes_from_nodes in Hn.
      apply elem_of_union in Hn as [Hn|Hn]; [by apply elem_of_list_to_set in Hn|].
      by apply elem_of_empty in Hn.
    + by apply elem_of_transaction_ids.
  - intros Hn. apply conflict_edges_nodes_mono.
    rewrite add_nodes_from_nodes. by apply elem_of_union_l, elem_of_list_to_set.
Qed.

Lemma conflict_graph_edges schedule x y :
  (x, y) ∈ nx.edges (conflict_graph schedule) ↔
  ∃ a b, [a; b] `sublist_of` schedule
         ∧ (abort (i a) ∉ schedule) ∧ (abort (i b) ∉ schedule)
         ∧ i a = x ∧ i b = y ∧ conflict_pair a b.
Proof.
  unfold conflict_graph. rewrite conflict_edges_edges, add_nodes_from_edges.
  simpl. unfold drop_aborts. split.
  - intros [[]%elem_of_empty|(a & b & Hsub & ? & ? & ?)].
    apply sublist_filter_iff in Hsub as [Hsub HP].
    apply Forall_cons in HP as [Ha [Hb _]%Forall_cons].
    rewrite elem_of_aborteds in Ha, Hb. exists a, b. by split_and!.
  - intros (a & b & Hsub & Ha & Hb & ? & ? & ?). right. exists a, b.
    split; [|done]. apply sublist_filter_iff. split; [done|].
    apply Forall_cons_2; [by rewrite elem_of_aborteds|].
    apply Forall_cons_2; [by rewrite elem_of_aborteds|]. apply Forall_nil_2.
Qed.

Lemma conflict_graph_edges_in_nodes schedule :
  edges_in_nodes (conflict_graph schedule).
Proof.
  intros x y (a & b & Hsub & Ha & Hb & <- & <- & _)%conflict_graph_edges.
  rewrite !conflict_graph_nodes. split; (split; [|done]);
    apply list_elem_of_fmap_2; eapply elem_of_sublist; [|done| |done]; set_solver.
Qed.

(** C2.  [conflict_serializable] returns [True] exactly when the conflict
    graph has no directed cycle; the nodes of the conflict graph are the
    ids of the transactions that do not abort, and there is an edge from
    [x] to [y] exactly when an action of [x] precedes an action of [y] in
    the schedule, neither transaction aborts, both actions are on the same
    object, [x] and [y] differ and one of the two actions is a write. *)
Theorem conflict_serializable_iff_acyclic schedule :
  (conflict_serializable schedule = true
   ↔ ¬ has_directed_cycle (conflict_graph schedule))
  ∧ (∀ t, t ∈ nx.nodes (conflict_graph schedule)
          ↔ t ∈ i <$> schedule ∧ abort t ∉ schedule)
  ∧ (∀ x y, (x, y) ∈ nx.edges (conflict_graph schedule)
            ↔ ∃ a b, [a; b] `sublist_of` schedule
                     ∧ (abort (i a) ∉ schedule) ∧ (abort (i b) ∉ schedule)
                     ∧ i a = x ∧ i b = y
                     ∧ obj a = obj b ∧ i a ≠ i b
                     ∧ (op a = WRITE ∨ op b = WRITE)).
Proof.
  split_and!.
  - unfold conflict_serializable. rewrite bool_decide_eq_true, length_zero_iff_nil.
    apply simple_cycles_nil_iff, conflict_graph_edges_in_nodes.
  - apply conflict_graph_nodes.
  - apply conflict_graph_edges.
Qed.

Lemma conflict_pair_read_or_write a b :
  conflict_pair a b → is_read_or_write a ∧ is_read_or_write b.
Proof.
  unfold conflict_pair, is_read_or_write.
  destruct a, b; simpl; intros (? & ? & [?|?]); try done; auto.
Qed.

Lemma conflict_graph_edges_drop_aborts schedule x y :
  (x, y) ∈ nx.edges (conflict_graph schedule) ↔
  ∃ a b, [a; b] `sublist_of` filter is_read_or_write (drop_aborts schedule)
         ∧ i a = x ∧ i b = y ∧ conflict_pair a b.
Proof.
  unfold conflict_graph. rewrite conflict_edges_edges, add_nodes_from_edges.
  simpl. split.
  - intros [[]%elem_of_empty|(a & b & Hsub & ? & ? & Hc)].
    exists a, b. split_and!; [|done..]. apply sublist_filter_iff.
    split; [done|]. destruct (conflict_pair_read_or_write _ _ Hc).
    apply Forall_cons_2; [done|]. apply Forall_cons_2; [done|]. apply Forall_nil_2.
  - intros (a & b & [Hsub _]%sublist_filter_iff & ?). right. by exists a, b.
Qed.

(** C10.  The conflict graph has no self-loop; a pair of actions one of
    which is a commit or an abort adds no edge, so every edge comes from
    two read or write actions of transactions that do not abort, and the
    edge set depends on the read and write actions of those transactions
    only. *)
Theorem conflict_graph_no_self_loop schedule :
  (∀ x y, (x, y) ∈ nx.edges (conflict_graph schedule) → x ≠ y)
  ∧ (∀ G a b, ¬ is_read_or_write a ∨ ¬ is_read_or_write b →
              conflict_edges_from G a [b] = G)
  ∧ (∀ x y, (x, y) ∈ nx.edges (conflict_graph schedule) →
            ∃ a b, [a; b] `sublist_of` schedule ∧ i a = x ∧ i b = y
                   ∧ is_read_or_write a ∧ is_read_or_write b
                   ∧ (abort x ∉ schedule) ∧ (abort y ∉ schedule))
  ∧ (∀ schedule',
       filter is_read_or_write (drop_aborts schedule)
       = filter is_read_or_write (drop_aborts schedule') →
       nx.edges (conflict_graph schedule)
       = nx.edges (conflict_graph schedule')).
Proof.
  split_and!.
  - intros x y (a & b & _ & _ & _ & <- & <- & _ & ? & _)%conflict_graph_edges.
    done.
  - intros G a b Hrw. unfold conflict_edges_from. simpl.
    destruct (_ && _ && _) eqn:E; [|done].
    apply conflict_test_spec, conflict_pair_read_or_write in E. tauto.
  - intros x y (a & b & ? & ? & ? & <- & <- & Hc)%conflict_graph_edges.
    destruct (conflict_pair_read_or_write _ _ Hc).
    exists a, b. by split_and!.
  - intros schedule' Heq. apply set_eq. intros [x y].
    by rewrite !conflict_graph_edges_drop_aborts, Heq.
Qed.

(** The theorem applied to scenario B: its commits do not matter. *)
Lemma conflict_graph_no_self_loop_witness :
  nx.edges (conflict_graph scenario_B)
  = nx.edges (conflict_graph [r 1 "X"; w 2 "X"; w 1 "X"]).
Proof.
  apply (proj2 (proj2 (proj2 (conflict_graph_no_self_loop scenario_B)))).
  vm_compute. reflexivity.
Defined.

Section observes_lemmas.
Implicit Types (l : list (nat * Action)) (n nr nw : nat * Action).

Lemma latest_write_snoc_write l o n nw :
  writes_to o n → latest_write (l ++ [n]) o nw ↔ nw = n.
Proof.
  intros Hn. split.
  - intros (p & [[Hp Hl]|[-> ->]]%lookup_snoc_Some & _ & Hlater); [|done].
    exfalso. apply (Hlater (length l) n); [done| |done].
    apply lookup_snoc_Some. by right.
  - intros ->. exists (length l). split_and!; [|done|].
    + apply lookup_snoc_Some. by right.
    + intros k n' Hk [[? _]|[? _]]%lookup_snoc_Some; lia.
Qed.

Lemma latest_write_snoc_other l o n nw :
  ¬ writes_to o n → latest_write (l ++ [n]) o nw ↔ latest_write l o nw.
Proof.
  intros Hn. split.
  - intros (p & [[Hp Hl]|[-> ->]]%lookup_snoc_Some & Hw & Hlater); [|done].
    exists p. split_and!; [done..|]. intros k n' Hk Hk'.
    apply (Hlater k n' Hk). apply lookup_snoc_Some. left.
    split; [by eapply lookup_lt_Some|done].
  - intros (p & Hl & Hw & Hlater). exists p. split_and!; [|done|].
    + apply lookup_snoc_Some. left. split; [by eapply lookup_lt_Some|done].
    + intros k n' Hk [[_ ?]|[_ <-]]%lookup_snoc_Some; [by eapply Hlater|done].
Qed.

Lemma observes_snoc_mono l n nr nw :
  observes l nr nw → observes (l ++ [n]) nr nw.
Proof.
  intros (o & p & q & Hpq & Hp & Hq & Hw & Hr & Hbetween).
  exists o, p, q. split_and!; [done| | |done..|].
  - apply lookup_snoc_Some. left. split; [by eapply lookup_lt_Some|done].
  - apply lookup_snoc_Some. left. split; [by eapply lookup_lt_Some|done].
  - intros k n' Hk [[_ ?]|[-> _]]%lookup_snoc_Some; [by eapply Hbetween|].
    apply lookup_lt_Some in Hq. lia.
Qed.

Lemma observes_snoc_inv l n nr nw :
  observes (l ++ [n]) nr nw →
  observes l nr nw ∨ (nr = n ∧ ∃ o, reads o n ∧ latest_write l o nw).
Proof.
  intros (o & p & q & Hpq & Hp & Hq & Hw & Hr & Hbetween).
  apply lookup_snoc_Some in Hq as [[Hq Hlq]|[-> ->]].
  - left. exists o, p, q. split_and!; [done| |done..|].
    + apply lookup_snoc_Some in Hp as [[_ ?]|[? _]]; [done|lia].
    + intros k n' Hk Hk'. apply (Hbetween k n' Hk).
      apply lookup_snoc_Some. left. split; [by eapply lookup_lt_Some|done].
  - right. split; [done|]. exists o. split; [done|].
    apply lookup_snoc_Some in Hp as [[_ Hp]|[? _]]; [|lia].
    exists p. split_and!; [done..|]. intros k n' Hk Hk'.
    apply (Hbetween k n'); [split; [done|by eapply lookup_lt_Some]|].
    apply lookup_snoc_Some. left. split; [by eapply lookup_lt_Some|done].
Qed.

Lemma observes_snoc_latest l n o nw :
  reads o n → latest_write l o nw → observes (l ++ [n]) n nw.
Proof.
  intros Hr (p & Hp & Hw & Hlater).
  exists o, p, (length l). split_and!; [by eapply lookup_lt_Some| | |done..|].
  - apply lookup_snoc_Some. left. split; [by eapply lookup_lt_Some|done].
  - apply lookup_snoc_Some. by right.
  - intros k n' [Hk Hk'] [[_ ?]|[-> _]]%lookup_snoc_Some; [|lia].
    by eapply Hlater.
Qed.

Lemma latest_write_functional l o nw nw' :
  latest_write l o nw → latest_write l o nw' → nw = nw'.
Proof.
  intros (p & Hp & Hw & Hlater) (p' & Hp' & Hw' & Hlater').
  destruct (decide (p = p')) as [->|Hne]; [congruence|].
  destruct (decide (p < p')).
  - by destruct (Hlater p' nw').
  - destruct (Hlater' p nw); [lia|done..].
Qed.

Lemma reads_functional n o o' : reads o n → reads o' n → o = o'.
Proof. intros [t Ht] [t' Ht']. congruence. Qed.

Lemma reads_not_writes n o o' : reads o n → ¬ writes_to o' n.
Proof. intros [t Ht] [t' Ht']. congruence. Qed.
End observes_lemmas.

Lemma add_edge_endpoints_only {N} `{Countable N} (G : nx.DiGraph N) u v :
  endpoints_only G → endpoints_only (nx.add_edge G u v).
Proof.
  unfold endpoints_only. intros HG n. simpl.
  rewrite !elem_of_union, !elem_of_singleton, HG. split.
  - intros [[->| ->]|[m [?|?]]].
    + exists v. left. rewrite elem_of_union, elem_of_singleton. by left.
    + exists u. right. rewrite elem_of_union, elem_of_singleton. by left.
    + exists m. left. rewrite elem_of_union. by right.
    + exists m. right. rewrite elem_of_union. by right.
  - intros [m [Hm|Hm]]; rewrite elem_of_union, elem_of_singleton in Hm;
      destruct Hm as [[= -> ->]|?]; eauto.
Qed.

Lemma view_graph_scan l G lw :
  foldl view_graph_step (nx.empty, ∅) l = (G, lw) →
  (∀ o nw, lw !! o = Some nw ↔ latest_write l o nw)
  ∧ (∀ nr nw, (nr, nw) ∈ nx.edges G ↔ observes l nr nw)
  ∧ endpoints_only G.
Proof.
  revert G lw. induction l as [|n l IH] using rev_ind; intros G lw.
  - intros [= <- <-]. split_and!.
    + intros o nw. rewrite lookup_empty. split; [done|].
      by intros (p & ? & _).
    + intros nr nw. simpl. split; [by intros ?%elem_of_empty|].
      by intros (o & p & q & _ & ? & _).
    + intros n. simpl. split; [by intros ?%elem_of_empty|].
      by intros [m [?%elem_of_empty|?%elem_of_empty]].
  - rewrite foldl_snoc.
    destruct (foldl view_graph_step (nx.empty, ∅) l) as [G0 lw0].
    destruct (IH G0 lw0 eq_refl) as (Hlw & Hedges & Hends). clear IH.
    unfold view_graph_step.
    destruct (n.2) as [t o|t o|t|t] eqn:Hn.
    + (* a read *)
      assert (reads o n) as Hr by by exists t.
      assert (∀ o' nw, lw0 !! o' = Some nw ↔ latest_write (l ++ [n]) o' nw) as Hlw'.
      { intros o' nw. rewrite latest_write_snoc_other; [done|].
        by eapply reads_not_writes. }
      destruct (lw0 !! o) as [nw0|] eqn:Hlast.
      * intros [= <- <-]. split_and!; [done| |by apply add_edge_endpoints_only].
        intros nr nw. simpl. rewrite elem_of_union, elem_of_singleton, Hedges.
        split.
        -- intros [[= -> ->]|?]; [|by apply observes_snoc_mono].
           eapply observes_snoc_latest; [done|]. by apply Hlw.
        -- intros [?|(-> & o' & Hr' & Hl)]%observes_snoc_inv; [by right|].
           left. f_equal. rewrite (reads_functional _ _ _ Hr' Hr) in Hl.
           apply Hlw in Hl. congruence.
      * intros [= <- <-]. split_and!; [done| |done].
        intros nr nw. rewrite Hedges. split; [apply observes_snoc_mono|].
        intros [?|(-> & o' & Hr' & Hl)]%observes_snoc_inv; [done|].
        rewrite (reads_functional _ _ _ Hr' Hr) in Hl.
        apply Hlw in Hl. congruence.
    + (* a write *)
      assert (writes_to o n) as Hw by by exists t.
      intros [= <- <-]. split_and!; [| |done].
      * intros o' nw. destruct (decide (o = o')) as [<-|Hne].
        -- rewrite lookup_insert_eq, latest_write_snoc_write by done.
           split; [by intros [= <-]|by intros ->].
        -- rewrite lookup_insert_ne, latest_write_snoc_other; [done| |done].
           intros [t' Ht']. congruence.
      * intros nr nw. rewrite Hedges. split; [apply observes_snoc_mono|].
        intros [?|(-> & o' & [t' Ht'] & _)]%observes_snoc_inv; [done|congruence].
    + intros [= <- <-]. split_and!; [| |done].
      * intros o' nw. rewrite latest_write_snoc_other; [done|].
        intros [t' Ht']. congruence.
      * intros nr nw. rewrite Hedges. split; [apply observes_snoc_mono|].
        intros [?|(-> & o' & [t' Ht'] & _)]%observes_snoc_inv; [done|congruence].
    + intros [= <- <-]. split_and!; [| |done].
      * intros o' nw. rewrite latest_write_snoc_other; [done|].
        intros [t' Ht']. congruence.
      * intros nr nw. rewrite Hedges. split; [apply observes_snoc_mono|].
        intros [?|(-> & o' & [t' Ht'] & _)]%observes_snoc_inv; [done|congruence].
Qed.

Lemma view_graph_edges schedule nr nw :
  (nr, nw) ∈ nx.edges (view_graph schedule) ↔ observes (number schedule) nr nw.
Proof.
  unfold view_graph.
  destruct (foldl view_graph_step (nx.empty, ∅) (number schedule)) as [G lw] eqn:E.
  by destruct (view_graph_scan _ _ _ E) as (_ & ? & _).
Qed.

Lemma view_graph_endpoints_only schedule : endpoints_only (view_graph schedule).
Proof.
  unfold view_graph.
  destruct (foldl view_graph_step (nx.empty, ∅) (number schedule)) as [G lw] eqn:E.
  by destruct (view_graph_scan _ _ _ E) as (_ & _ & ?).
Qed.

(** [number] pairs each action with its index within its transaction. *)
Lemma number_scan (ns0 : gmap nat nat) schedule :
  (∀ j, ns0 !!! j = 0) →
  (∀ j, (foldl number_step (ns0, []) schedule).1 !!! j
        = length (filter (λ b, i b = j) schedule))
  ∧ (foldl number_step (ns0, []) schedule).2
    = imap (λ p a, (local_index schedule p a, a)) schedule.
Proof.
  intros Hzero. induction schedule as [|a pre [IHns IHs]] using rev_ind.
  - split; [|done]. intros j. simpl. apply Hzero.
  - rewrite foldl_snoc.
    destruct (foldl number_step (ns0, []) pre) as [ns s]. simpl in *.
    split.
    + intros j. rewrite filter_app, length_app.
      destruct (decide (i a = j)) as [<-|Hne].
      * rewrite lookup_total_insert_eq, filter_cons_True by done.
        rewrite IHns. simpl. lia.
      * rewrite lookup_total_insert_ne, filter_cons_False by done.
        rewrite IHns. simpl. lia.
    + rewrite imap_app, IHs. simpl. f_equal.
      * apply imap_ext. intros p b Hp. unfold local_index.
        rewrite take_app_le; [done|].
        apply lookup_lt_Some in Hp. lia.
      * unfold local_index. rewrite Nat.add_0_r, take_app_length, IHns. done.
Qed.

Lemma number_spec schedule :
  number schedule = imap (λ p a, (local_index schedule p a, a)) schedule.
Proof.
  unfold number. apply number_scan. intros j.
  rewrite lookup_total_alt.
  destruct (list_to_map _ !! j) as [v|] eqn:Hj; [|done]. simpl.
  apply elem_of_list_to_map_2, list_elem_of_fmap in Hj as (? & [= _ ->] & _).
  done.
Qed.

Lemma number_lookup schedule p k a :
  number schedule !! p = Some (k, a)
  ↔ schedule !! p = Some a ∧ k = local_index schedule p a.
Proof.
  rewrite number_spec, list_lookup_imap.
  destruct (schedule !! p) as [b|]; simpl.
  - split; [by intros [= <- <-]|]. by intros [[= ->] ->].
  - split; [done|]. by intros [? _].
Qed.

Lemma local_index_lt schedule p q a :
  p < q → schedule !! p = Some a →
  local_index schedule p a < local_index schedule q a.
Proof.
  intros Hpq Hp. unfold local_index.
  replace q with (S p + (q - S p)) by lia.
  rewrite <-take_take_drop, (take_S_r _ _ _ Hp), !filter_app, !length_app.
  rewrite filter_cons_True by done. simpl. lia.
Qed.

Lemma NoDup_number schedule : NoDup (number schedule).
Proof.
  apply NoDup_alt. intros p q [k a] [Hp Hk]%number_lookup [Hq Hk']%number_lookup.
  destruct (decide (p = q)) as [|Hne]; [done|]. exfalso.
  destruct (decide (p < q)) as [Hlt|Hge].
  - pose proof (local_index_lt schedule p q a Hlt Hp). lia.
  - assert (q < p) as Hlt by lia.
    pose proof (local_index_lt schedule q p a Hlt Hq). lia.
Qed.

Lemma number_step_snd l ns s :
  (foldl number_step (ns, s) l).2.*2 = s.*2 ++ l.
Proof.
  revert ns s. induction l as [|a l IH]; intros ns s; simpl.
  - by rewrite app_nil_r.
  - rewrite IH, fmap_app. simpl. by rewrite <-app_assoc.
Qed.

Lemma number_snd schedule : (number schedule).*2 = schedule.
Proof. unfold number. by rewrite number_step_snd. Qed.

Lemma endpoints_only_graphs_eq {N} `{Countable N} (G1 G2 : nx.DiGraph N) :
  endpoints_only G1 → endpoints_only G2 →
  graphs_eq G1 G2 = bool_decide (nx.edges G1 = nx.edges G2).
Proof.
  intros H1 H2. unfold graphs_eq.
  destruct (decide (nx.edges G1 = nx.edges G2)) as [Hedges|Hedges].
  - rewrite (bool_decide_eq_true_2 _ Hedges), andb_true_r.
    apply bool_decide_eq_true. apply set_eq. intros n.
    unfold endpoints_only in *. by rewrite H1, H2, Hedges.
  - rewrite (bool_decide_eq_false_2 _ Hedges). apply andb_false_r.
Qed.

(** C9.  The numbered actions of a schedule are pairwise distinct, and a
    numbered action is a node of the view graph only as an endpoint of an
    edge, and the edges are the pairs of a read and the
    write it observes: a node is a write observed by some later read or a
    read that observes some earlier write, never a commit or an abort.
    Hence [graphs_eq] on two view graphs compares their edge sets. *)
Theorem view_graph_nodes_are_edge_endpoints schedule :
  (∀ p k a, number schedule !! p = Some (k, a)
            ↔ schedule !! p = Some a ∧ k = local_index schedule p a)
  ∧ NoDup (number schedule)
  ∧ (∀ n, n ∈ nx.nodes (view_graph schedule) ↔
          ∃ m, (n, m) ∈ nx.edges (view_graph schedule)
               ∨ (m, n) ∈ nx.edges (view_graph schedule))
  ∧ (∀ nr nw, (nr, nw) ∈ nx.edges (view_graph schedule) ↔
              observes (number schedule) nr nw)
  ∧ (∀ n, n ∈ nx.nodes (view_graph schedule) →
          (∃ o, writes_to o n ∧ ∃ nr, observes (number schedule) nr n)
          ∨ (∃ o, reads o n ∧ ∃ nw, observes (number schedule) n nw))
  ∧ (∀ n t, n.2 = commit t ∨ n.2 = abort t →
            n ∉ nx.nodes (view_graph schedule))
  ∧ (∀ s2, graphs_eq (view_graph schedule) (view_graph s2)
           = bool_decide (nx.edges (view_graph schedule)
                          = nx.edges (view_graph s2))).
Proof.
  assert (∀ n, n ∈ nx.nodes (view_graph schedule) →
            (∃ o, writes_to o n ∧ ∃ nr, observes (number schedule) nr n)
            ∨ (∃ o, reads o n ∧ ∃ nw, observes (number schedule) n nw)) as Hnode.
  { intros n [m [Hm|Hm]]%view_graph_endpoints_only;
      apply view_graph_edges in Hm; pose proof Hm as Hobs;
      destruct Hm as (o & _ & _ & _ & _ & _ & Hw & Hr & _).
    - right. exists o. split; [done|]. by exists m.
    - left. exists o. split; [done|]. by exists m. }
  split_and!.
  - apply number_lookup.
  - apply NoDup_number.
  - apply view_graph_endpoints_only.
  - apply view_graph_edges.
  - done.
  - intros n t Hn Hin.
    destruct (Hnode n Hin) as [(o & [t' Ht'] & _)|(o & [t' Ht'] & _)];
      destruct Hn; congruence.
  - intros s2. apply endpoints_only_graphs_eq; apply view_graph_endpoints_only.
Qed.

Lemma same_transaction_ids_sets s1 s2 :
  list_to_set (transaction_ids s1) =@{gset nat} list_to_set (transaction_ids s2)
  ↔ same_transaction_ids s1 s2.
Proof.
  unfold same_transaction_ids. rewrite set_eq.
  by setoid_rewrite elem_of_list_to_set; setoid_rewrite elem_of_transaction_ids.
Qed.

Lemma view_equivalent_unfold s1 s2 :
  view_equivalent s1 s2 =
  if decide (list_to_set (transaction_ids s1)
             =@{gset nat} list_to_set (transaction_ids s2))
  then Ok (bool_decide (first_read s1 = first_read s2)
           && graphs_eq (view_graph s1) (view_graph s2)
           && bool_decide (last_written s1 = last_written s2))
  else Raise AssertionError.
Proof.
  unfold view_equivalent. case_decide; [|done].
  destruct (bool_decide (first_read s1 = first_read s2)); [|done].
  destruct (graphs_eq (view_graph s1) (view_graph s2)); [|done].
  by destruct (bool_decide (last_written s1 = last_written s2)).
Qed.

(** The outcome of [view_equivalent] in terms of its three tests. *)
Lemma view_equivalent_code_contract s1 s2 :
  (view_equivalent s1 s2 = Raise AssertionError
   ↔ ¬ same_transaction_ids s1 s2)
  ∧ (∀ b, view_equivalent s1 s2 = Ok b
          ↔ same_transaction_ids s1 s2
            ∧ (b = true ↔ first_read s1 = first_read s2
                          ∧ graphs_eq (view_graph s1) (view_graph s2) = true
                          ∧ last_written s1 = last_written s2)).
Proof.
  rewrite view_equivalent_unfold, <-same_transaction_ids_sets.
  case_decide as Hids.
  - split; [split; [done|tauto]|].
    intros b. split.
    + intros [= <-]. split; [by apply same_transaction_ids_sets|].
      rewrite !andb_true_iff, !bool_decide_eq_true. tauto.
    + intros [_ Hb]. f_equal.
      destruct (decide (first_read s1 = first_read s2)) as [H1|H1];
        [rewrite (bool_decide_eq_true_2 _ H1)
        |rewrite (bool_decide_eq_false_2 _ H1)];
      destruct (graphs_eq (view_graph s1) (view_graph s2));
      (destruct (decide (last_written s1 = last_written s2)) as [H3|H3];
        [rewrite (bool_decide_eq_true_2 _ H3)
        |rewrite (bool_decide_eq_false_2 _ H3)]);
      simpl; destruct b; try done;
        try (symmetry; by apply Hb);
        destruct Hb as [Hb _]; destruct (Hb eq_refl) as (? & ? & ?); done.
  - split; [done|]. intros b. split; [done|].
    by intros [?%same_transaction_ids_sets _].
Qed.

Lemma first_read_scan schedule fr written o :
  (foldl first_read_step (fr, written) schedule).1 !! o =
  if decide (o ∈ written) then fr !! o
  else match first_readers o schedule with
       | [] => fr !! o
       | l => Some ((fr !!! o) ++ l)
       end.
Proof.
  revert fr written.
  induction schedule as [|a rest IH]; intros fr written; simpl.
  - by case_decide.
  - destruct a as [t o'|t o'|t|t]; simpl; [| |apply IH..].
    + destruct (decide (o' ∉ written)) as [Hnw|Hw]; rewrite IH.
      * destruct (decide (o' = o)) as [->|Hne].
        -- destruct (decide (o ∈ written)); [done|].
           rewrite lookup_insert_eq, lookup_total_insert_eq.
           destruct (first_readers o rest); [done|].
           by rewrite <-app_assoc.
        -- rewrite lookup_insert_ne, lookup_total_insert_ne by done. done.
      * destruct (decide (o' = o)) as [->|Hne]; [|done].
        destruct (decide (o ∈ written)); [done|]. by destruct Hw.
    + rewrite IH. destruct (decide (o' = o)) as [->|Hne].
      * destruct (decide (o ∈ {[o]} ∪ written)) as [_|Hn].
        -- by case_decide.
        -- destruct Hn. apply elem_of_union_l. by apply elem_of_singleton.
      * destruct (decide (o ∈ written)) as [Hw|Hnw],
          (decide (o ∈ {[o']} ∪ written)) as [Hw'|Hnw']; try done.
        -- destruct Hnw'. by apply elem_of_union_r.
        -- apply elem_of_union in Hw' as [?%elem_of_singleton|?]; done.
Qed.

Lemma first_read_lookup schedule o :
  first_read schedule !! o = nonempty_list (first_readers o schedule).
Proof.
  unfold first_read. rewrite first_read_scan.
  rewrite decide_False by apply not_elem_of_empty.
  rewrite lookup_empty, lookup_total_empty.
  by destruct (first_readers o schedule).
Qed.

Lemma first_read_agreement s1 s2 :
  first_read s1 = first_read s2
  ↔ ∀ o, first_readers o s1 = first_readers o s2.
Proof.
  split.
  - intros Heq o. pose proof (first_read_lookup s1 o) as H1.
    rewrite Heq, first_read_lookup in H1.
    destruct (first_readers o s1), (first_readers o s2); simpl in H1;
      congruence.
  - intros Heq. apply map_eq. intros o.
    by rewrite !first_read_lookup, Heq.
Qed.

Lemma last_written_lookup schedule o :
  last_written schedule !! o = final_writer o schedule.
Proof.
  unfold last_written, final_writer.
  induction schedule as [|a pre IH] using rev_ind; [done|].
  rewrite foldl_snoc, omap_app, last_app. simpl.
  destruct a as [t o'|t o'|t|t]; simpl; try done.
  destruct (decide (o' = o)) as [->|Hne]; simpl.
  - by rewrite lookup_insert_eq.
  - by rewrite lookup_insert_ne.
Qed.

Lemma last_written_agreement s1 s2 :
  last_written s1 = last_written s2
  ↔ ∀ o, final_writer o s1 = final_writer o s2.
Proof.
  split.
  - intros Heq o. by rewrite <-!last_written_lookup, Heq.
  - intros Heq. apply map_eq. intros o. by rewrite !last_written_lookup.
Qed.

Lemma view_graph_agreement s1 s2 :
  graphs_eq (view_graph s1) (view_graph s2) = true
  ↔ ∀ nr nw, observes (number s1) nr nw ↔ observes (number s2) nr nw.
Proof.
  rewrite endpoints_only_graphs_eq by apply view_graph_endpoints_only.
  rewrite bool_decide_eq_true, set_eq. split.
  - intros Heq nr nw. rewrite <-!view_graph_edges. apply Heq.
  - intros Heq [nr nw]. rewrite !view_graph_edges. apply Heq.
Qed.

(** C8 as stated does not hold when the three agreements are taken after
    dropping the aborted transactions from both schedules:
    [view_equivalent] compares the schedules as they are given.  With the
    aborted write of transaction 1 before the read of transaction 2 in
    one schedule and after it in the other, the two schedules agree once
    the aborted transaction is dropped, and [view_equivalent] returns
    [False]. *)
Lemma view_equivalent_keeps_aborted_transactions :
  ¬ (∀ s1 s2, same_transaction_ids s1 s2 →
              (view_equivalent s1 s2 = Ok true
               ↔ view_agreement (drop_aborts s1) (drop_aborts s2))).
Proof.
  intros Hall.
  destruct (Hall aborted_write_before_read aborted_write_after_read)
    as [_ Hback].
  { apply same_transaction_ids_sets. vm_compute. reflexivity. }
  assert (drop_aborts aborted_write_before_read
          = drop_aborts aborted_write_after_read) as Hdrop
    by (vm_compute; reflexivity).
  assert (view_equivalent aborted_write_before_read aborted_write_after_read
          = Ok true) as Heq.
  { apply Hback. rewrite Hdrop. by split_and!. }
  vm_compute in Heq. discriminate Heq.
Qed.

(** C8, as the code has it.  [view_equivalent s1 s2] fails its assertion
    exactly when the two schedules do not range over the same transaction
    ids; otherwise it returns a boolean, which is [True] exactly when the
    two schedules, as they are given and with their aborted transactions,
    have the same first readers of every object, the same pairs of a read
    and the write it observes, and the same final writer of every object.
    Reads and writes are identified by their action and by the number of
    earlier actions of their transaction. *)
Theorem view_equivalent_contract s1 s2 :
  (view_equivalent s1 s2 = Raise AssertionError
   ↔ ¬ same_transaction_ids s1 s2)
  ∧ (∀ b, view_equivalent s1 s2 = Ok b
          ↔ same_transaction_ids s1 s2
            ∧ (b = true ↔ view_agreement s1 s2)).
Proof.
  destruct (view_equivalent_code_contract s1 s2) as [Hraise Hok].
  split; [done|]. intros b. unfold view_agreement, numbered.
  rewrite Hok, first_read_agreement, view_graph_agreement,
    last_written_agreement, <-!number_spec. done.
Qed.

(** C3 as stated does not hold: [recoverable] and [aca] return [True] on
    scenario B. *)
Lemma scenario_B_not_all_false :
  ¬ (conflict_serializable scenario_B = false
     ∧ recoverable scenario_B = false
     ∧ aca scenario_B = false
     ∧ strict scenario_B = false).
Proof. intros (_ & Hrec & _). vm_compute in Hrec. discriminate Hrec. Qed.

(** C3, as the code has it.  Scenario B is not conflict-serializable, its
    conflict graph has the cycle 1 -> 2 -> 1, and it is not strict; but it
    is recoverable and avoids cascading aborts, as the test suite says of
    [exercise6]. *)
Theorem scenario_B_classification :
  conflict_serializable scenario_B = false
  ∧ nx.edges (conflict_graph scenario_B) = {[ (1, 2); (2, 1) ]}
  ∧ recoverable scenario_B = true
  ∧ aca scenario_B = true
  ∧ strict scenario_B = false.
Proof.
  split_and!; vm_compute; reflexivity.
Qed.

(** *** [itertools.permutations] lists exactly the permutations *)

Section permutations_lemmas.
Context {A : Type}.
Implicit Types (l p : list A).

Lemma select_Permutation l x rest :
  (x, rest) ∈ select l → l ≡ₚ x :: rest.
Proof.
  revert x rest. induction l as [|y l IH]; intros x rest; simpl.
  - by intros ?%elem_of_nil.
  - intros [[= -> ->]|Hin]%elem_of_cons; [done|].
    apply list_elem_of_fmap in Hin as ([x' rest'] & [= -> ->] & Hin).
    simpl. rewrite (IH _ _ Hin). apply Permutation_swap.
Qed.

Lemma select_complete l x :
  x ∈ l → ∃ rest, (x, rest) ∈ select l.
Proof.
  induction l as [|y l IH]; [by intros ?%elem_of_nil|].
  intros [->|Hin]%elem_of_cons; simpl.
  - exists l. by left.
  - destruct (IH Hin) as [rest Hrest]. exists (y :: rest). right.
    apply list_elem_of_fmap. by exists (x, rest).
Qed.

Lemma permutations_of_length_sound n l p :
  length l = n → p ∈ permutations_of_length n l → p ≡ₚ l.
Proof.
  revert l p. induction n as [|n IH]; intros l p Hlen; simpl.
  - intros ->%list_elem_of_singleton. by destruct l.
  - intros ([x rest] & Hp & Hsel)%list_elem_of_bind. simpl in Hp.
    apply list_elem_of_fmap in Hp as (p' & -> & Hp').
    pose proof (select_Permutation _ _ _ Hsel) as Hl.
    rewrite Hl. constructor. apply IH; [|done].
    apply Permutation_length in Hl. simpl in Hl. lia.
Qed.

Lemma permutations_of_length_complete l p :
  p ≡ₚ l → p ∈ permutations_of_length (length l) l.
Proof.
  revert l. induction p as [|x p IH]; intros l Hp.
  - apply Permutation_nil_l in Hp. subst l. by left.
  - assert (x ∈ l) as Hx by (rewrite <-Hp; by left).
    destruct (select_complete _ _ Hx) as [rest Hsel].
    pose proof (select_Permutation _ _ _ Hsel) as Hl.
    assert (p ≡ₚ rest) as Hrest.
    { apply (Permutation_cons_inv (a := x)). by rewrite Hp. }
    rewrite (Permutation_length Hl). simpl.
    apply list_elem_of_bind. exists (x, rest). split; [|done]. simpl.
    apply list_elem_of_fmap. exists p. split; [done|]. by apply IH.
Qed.

Lemma elem_of_permutations l p : p ∈ permutations l ↔ p ≡ₚ l.
Proof.
  unfold permutations. split.
  - by apply permutations_of_length_sound.
  - apply permutations_of_length_complete.
Qed.
End permutations_lemmas.

(** *** What [transactions] and [view_serializable] compute *)

Lemma index_lookup (js : list nat) k j :
  NoDup js → js !! k = Some j →
  foldl (λ (m : gmap nat nat) kj, <[kj.2 := kj.1]> m) ∅
        (imap (λ k j, (k, j)) js) !! j = Some k.
Proof.
  revert k j. induction js as [|x js IH] using rev_ind; intros k j Hnd Hk.
  - done.
  - apply NoDup_app in Hnd as (Hnd & Hx & _).
    rewrite imap_app, foldl_app. simpl. rewrite Nat.add_0_r.
    apply lookup_snoc_Some in Hk as [[Hlt Hk]|[-> ->]].
    + rewrite lookup_insert_ne; [by apply IH|].
      intros ->. eapply Hx; [by eapply list_elem_of_lookup_2|by left].
    + by rewrite lookup_insert_eq.
Qed.

(** [transactions] gives, for each id in order of first appearance, the
    actions of that transaction in schedule order. *)
Lemma transactions_spec schedule :
  transactions schedule
  = (λ j, filter (λ a, i a = j) schedule) <$> transaction_ids schedule.
Proof.
  unfold transactions.
  pose proof (NoDup_transaction_ids schedule) as Hnd.
  assert (∀ a, a ∈ schedule → i a ∈ transaction_ids schedule) as Hids.
  { intros a Ha. apply elem_of_transaction_ids, list_elem_of_fmap. eauto. }
  revert Hnd Hids. generalize (transaction_ids schedule) as js. intros js Hnd.
  induction schedule as [|a pre IH] using rev_ind; intros Hids.
  - simpl. apply list_eq. intros k.
    rewrite list_lookup_fmap. destruct (js !! k) as [j|] eqn:Hk; simpl.
    + apply lookup_replicate_2. by eapply lookup_lt_Some.
    + apply lookup_replicate_None. by apply lookup_ge_None.
  - rewrite foldl_snoc, IH by (intros b Hb; apply Hids, elem_of_app; by left).
    clear IH.
    assert (i a ∈ js) as Ha by (apply Hids, elem_of_app; right; by left).
    apply list_elem_of_lookup in Ha as [k Hk].
    rewrite (lookup_total_correct _ _ _ (index_lookup _ _ _ Hnd Hk)).
    apply list_eq. intros k'. destruct (decide (k = k')) as [<-|Hne].
    + rewrite list_lookup_alter_eq, !list_lookup_fmap, Hk. simpl.
      by rewrite filter_app, filter_cons_True.
    + rewrite list_lookup_alter_ne, !list_lookup_fmap by done.
      destruct (js !! k') as [j'|] eqn:Hk'; simpl; [|done].
      rewrite filter_app, filter_cons_False, filter_nil, app_nil_r; [done|].
      intros Heq. apply Hne.
      apply (NoDup_lookup js k k' (i a)); [done|done|]. by rewrite Heq.
Qed.

Lemma elem_of_flatten {A} (ls : list (list A)) x :
  x ∈ flatten ls ↔ ∃ l, l ∈ ls ∧ x ∈ l.
Proof.
  unfold flatten. rewrite list_elem_of_bind. split.
  - intros (l & (y & ->%list_elem_of_singleton & ?)%list_elem_of_bind & ?). eauto.
  - intros (l & ? & ?). exists l. split; [|done].
    apply list_elem_of_bind. exists x. split; [by left|done].
Qed.

Lemma elem_of_transactions schedule a :
  (∃ l, l ∈ transactions schedule ∧ a ∈ l) ↔ a ∈ schedule.
Proof.
  rewrite transactions_spec. split.
  - intros (l & (j & -> & _)%list_elem_of_fmap & Ha).
    by apply list_elem_of_filter in Ha as [_ ?].
  - intros Ha. exists (filter (λ b, i b = i a) schedule). split.
    + apply list_elem_of_fmap. exists (i a). split; [done|].
      apply elem_of_transaction_ids, list_elem_of_fmap. eauto.
    + by apply list_elem_of_filter.
Qed.

Lemma serial_same_transaction_ids schedule p :
  p ≡ₚ transactions schedule →
  same_transaction_ids (flatten p) schedule.
Proof.
  intros Hp t. rewrite !list_elem_of_fmap.
  assert (∀ a, a ∈ flatten p ↔ a ∈ schedule) as Hin.
  { intros a. rewrite elem_of_flatten, <-elem_of_transactions.
    by setoid_rewrite Hp. }
  by setoid_rewrite Hin.
Qed.

Lemma search_serial_spec schedule candidates :
  Forall (λ p, same_transaction_ids (flatten p) schedule) candidates →
  ∃ b, search_serial schedule candidates = Ok b
       ∧ (b = true ↔ ∃ p, p ∈ candidates
                          ∧ view_equivalent (flatten p) schedule = Ok true).
Proof.
  induction 1 as [|p candidates Hp _ (b & IH & Hb)]; simpl.
  - exists false. split; [done|]. split; [done|].
    by intros (p & ?%elem_of_nil & _).
  - rewrite view_equivalent_unfold.
    rewrite decide_True by by apply same_transaction_ids_sets.
    destruct (_ && _ && _) eqn:E.
    + exists true. split; [done|]. split; [|done]. intros _. exists p.
      split; [by left|]. rewrite view_equivalent_unfold.
      rewrite decide_True by by apply same_transaction_ids_sets.
      by rewrite E.
    + exists b. split; [done|]. rewrite Hb. split.
      * intros (p' & ? & ?). exists p'. split; [by right|done].
      * intros (p' & [->|?]%elem_of_cons & Hve); [|by exists p'].
        rewrite view_equivalent_unfold in Hve.
        rewrite decide_True in Hve by by apply same_transaction_ids_sets.
        congruence.
Qed.

(** [view_serializable] never fails the assertion of [view_equivalent],
    and returns [True] exactly through the first shortcut or through the
    brute force search after the second one. *)
Lemma view_serializable_spec schedule :
  ∃ b, view_serializable schedule = Ok b
       ∧ (b = true ↔
          conflict_serializable (drop_aborts schedule) = true
          ∨ (has_blind_write (transactions (drop_aborts schedule)) = true
             ∧ ∃ p, p ≡ₚ transactions (drop_aborts schedule)
                    ∧ view_equivalent (flatten p) (drop_aborts schedule)
                      = Ok true)).
Proof.
  unfold view_serializable.
  destruct (conflict_serializable (drop_aborts schedule)) eqn:Hcs.
  { exists true. split; [done|]. split; [by left|done]. }
  destruct (has_blind_write (transactions (drop_aborts schedule))) eqn:Hbw; simpl.
  2:{ exists false. split; [done|]. split; [done|].
      intros [?|[? _]]; done. }
  destruct (search_serial_spec (drop_aborts schedule)
              (permutations (transactions (drop_aborts schedule))))
    as (b & -> & Hb).
  { apply Forall_forall. intros p Hp%elem_of_permutations.
    by apply serial_same_transaction_ids. }
  exists b. split; [done|]. rewrite Hb. split.
  - intros (p & Hp%elem_of_permutations & ?). right. split; [done|]. by exists p.
  - intros [?|[_ (p & Hp & ?)]]; [done|]. exists p.
    split; [by apply elem_of_permutations|done].
Qed.

(** C1.  On [reordered_first_reads] the first shortcut returns [True],
    although a transaction has a blind write, the brute force search
    returns [False] and no permutation of the partitions is
    view-equivalent to the schedule: [first_read] compares the ordered
    lists of first readers. *)
Theorem view_serializable_shortcut_disagrees :
  view_serializable reordered_first_reads = Ok true
  ∧ conflict_serializable (drop_aborts reordered_first_reads) = true
  ∧ has_blind_write (transactions (drop_aborts reordered_first_reads)) = true
  ∧ search_serial (drop_aborts reordered_first_reads)
      (permutations (transactions (drop_aborts reordered_first_reads)))
    = Ok false
  ∧ ∀ p, p ≡ₚ transactions (drop_aborts reordered_first_reads) →
         view_equivalent (flatten p) (drop_aborts reordered_first_reads)
         = Ok false.
Proof.
  split_and!; [vm_compute; reflexivity..|].
  intros p Hp%elem_of_permutations. vm_compute in Hp.
  repeat (apply elem_of_cons in Hp as [->|Hp]; [vm_compute; reflexivity|]).
  by apply elem_of_nil in Hp.
Qed.

(** *** Further properties of the helper functions and the predicates *)

Lemma transaction_ids_from js schedule :
  foldl (λ js a, if decide (i a ∈ js) then js else js ++ [i a]) js schedule
  = js ++ filter (λ j, j ∉ js) (transaction_ids schedule).
Proof.
  induction schedule as [|a pre IH] using rev_ind.
  - simpl. by rewrite app_nil_r.
  - rewrite foldl_snoc, IH, transaction_ids_snoc. clear IH.
    destruct (decide (i a ∈ transaction_ids pre)) as [Hin|Hnin].
    + rewrite decide_True; [done|].
      destruct (decide (i a ∈ js)); [by apply elem_of_app; left|].
      apply elem_of_app. right. by apply list_elem_of_filter.
    + rewrite filter_app. destruct (decide (i a ∈ js)) as [Hjs|Hjs].
      * rewrite decide_True by (apply elem_of_app; by left).
        rewrite filter_cons_False, filter_nil, app_nil_r; [done|]. by intros [].
      * rewrite decide_False.
        -- rewrite filter_cons_True, filter_nil by done. by rewrite app_assoc.
        -- intros [?|[_ ?]%list_elem_of_filter]%elem_of_app; done.
Qed.

Lemma transaction_ids_app s1 s2 :
  transaction_ids (s1 ++ s2)
  = transaction_ids s1
    ++ filter (λ j, j ∉ transaction_ids s1) (transaction_ids s2).
Proof.
  unfold transaction_ids at 1. rewrite foldl_app.
  apply transaction_ids_from.
Qed.

Lemma transaction_ids_cons a schedule :
  transaction_ids (a :: schedule)
  = i a :: filter (λ j, j ≠ i a) (transaction_ids schedule).
Proof.
  change (a :: schedule) with ([a] ++ schedule).
  rewrite transaction_ids_app. simpl. f_equal.
  apply list_filter_iff. intros j. split.
  - intros Hn ->. apply Hn. by left.
  - intros Hn [->|[]%elem_of_nil]%elem_of_cons. done.
Qed.

(** X1.  [transaction_ids] lists every transaction id of the schedule
    exactly once, in the order in which the transactions first appear: an
    id is listed iff some action of the schedule has it, and an id listed
    before another has its first action earlier.  Putting an action in
    front moves its id to the front, and appending a schedule appends
    the ids that are new. *)
Theorem transaction_ids_first_appearance schedule :
  NoDup (transaction_ids schedule)
  ∧ (∀ t, t ∈ transaction_ids schedule ↔ ∃ a, a ∈ schedule ∧ i a = t)
  ∧ (∀ t u, [t; u] `sublist_of` transaction_ids schedule →
            first_pos t schedule < first_pos u schedule)
  ∧ (∀ a, transaction_ids (a :: schedule)
          = i a :: filter (λ j, j ≠ i a) (transaction_ids schedule))
  ∧ (∀ rest, transaction_ids (schedule ++ rest)
             = transaction_ids schedule
               ++ filter (λ j, j ∉ transaction_ids schedule)
                         (transaction_ids rest)).
Proof.
  split_and!.
  - apply NoDup_transaction_ids.
  - intros t. rewrite elem_of_transaction_ids, list_elem_of_fmap.
    split; intros (a & ? & ?); exists a; done.
  - intros t u. apply transaction_ids_first_pos.
  - intros a. apply transaction_ids_cons.
  - intros rest. apply transaction_ids_app.
Qed.

(** [flatten] and the partitions of a schedule. *)
Lemma flatten_nil {A} : flatten (@nil (list A)) = [].
Proof. done. Qed.

Lemma bind_singleton_id {A} (l : list A) : l ≫= (λ x, [x]) = l.
Proof. induction l as [|x l IH]; [done|]. csimpl. by rewrite IH. Qed.

Lemma flatten_cons {A} (l : list A) ls : flatten (l :: ls) = l ++ flatten ls.
Proof. unfold flatten. csimpl. by rewrite bind_singleton_id. Qed.

Lemma flatten_app {A} (ls1 ls2 : list (list A)) :
  flatten (ls1 ++ ls2) = flatten ls1 ++ flatten ls2.
Proof.
  induction ls1 as [|l ls1 IH]; [done|].
  rewrite <-app_comm_cons, !flatten_cons, IH. by rewrite app_assoc.
Qed.

Lemma filter_Forall_nil {A} (P : A → Prop) `{!∀ x, Decision (P x)} (l : list A) :
  Forall (λ x, ¬ P x) l → filter P l = [].
Proof.
  induction 1 as [|x l Hx _ IH]; [done|]. by rewrite filter_cons_False.
Qed.

Lemma flatten_partition (js : list nat) schedule :
  NoDup js → (∀ a, a ∈ schedule → i a ∈ js) →
  flatten ((λ j, filter (λ a, i a = j) schedule) <$> js) ≡ₚ schedule.
Proof.
  revert schedule. induction js as [|j js IH]; intros schedule Hnd Hin.
  - destruct schedule as [|a ?]; [done|].
    exfalso. eapply elem_of_nil, (Hin a). by left.
  - apply NoDup_cons in Hnd as [Hj Hnd]. rewrite fmap_cons, flatten_cons.
    etrans; [|apply (filter_app_complement (λ a, i a = j) schedule)].
    apply Permutation_app_head.
    rewrite <-(IH (filter (λ a, ¬ i a = j) schedule) Hnd).
    + f_equiv. apply list_eq. intros k. rewrite !list_lookup_fmap.
      destruct (js !! k) as [j'|] eqn:Hk; simpl; [|done]. f_equal.
      rewrite list_filter_filter. apply list_filter_iff. intros a.
      split; [|by intros [? _]]. intros ->. split; [done|].
      intros ->. apply Hj. by eapply list_elem_of_lookup_2.
    + intros a [Hne Ha]%list_elem_of_filter.
      pose proof (Hin a Ha) as Hi. apply elem_of_cons in Hi as [?|?]; done.
Qed.

(** X2.  [transactions] partitions the schedule by transaction: the
    partition of each id, in order of first appearance, holds the actions
    of that transaction in schedule order.  The partitions together hold
    the actions of the schedule, each as often as the schedule does; no
    partition is empty, each is a subsequence of the schedule, and there
    is none only for the empty schedule. *)
Theorem transactions_partition schedule :
  transactions schedule
  = (λ j, filter (λ a, i a = j) schedule) <$> transaction_ids schedule
  ∧ flatten (transactions schedule) ≡ₚ schedule
  ∧ Forall (λ part, part ≠ []) (transactions schedule)
  ∧ (∀ part, part ∈ transactions schedule → part `sublist_of` schedule)
  ∧ (transactions schedule = [] ↔ schedule = []).
Proof.
  rewrite transactions_spec. split_and!.
  - done.
  - apply flatten_partition; [apply NoDup_transaction_ids|].
    intros a Ha. apply elem_of_transaction_ids, list_elem_of_fmap. eauto.
  - apply Forall_fmap, Forall_forall. intros j Hj. simpl.
    apply elem_of_transaction_ids, list_elem_of_fmap in Hj as (a & -> & Ha).
    intros Hnil.
    by apply (filter_nil_not_elem_of (λ b, i b = i a) schedule a Hnil).
  - intros part (j & -> & _)%list_elem_of_fmap. apply sublist_filter.
  - split.
    + intros Hnil%fmap_nil_inv. destruct schedule as [|a ?]; [done|].
      rewrite transaction_ids_cons in Hnil. done.
    + by intros ->.
Qed.

(** X3.  [drop_aborts] keeps exactly the actions of the transactions
    that never abort, in schedule order and each as often as it occurs:
    it is the schedule filtered by "the transaction of the action has no
    abort in the schedule".  Hence the result has no abort left, dropping
    twice is dropping once, and nothing is dropped exactly when the
    schedule has no abort. *)
Theorem drop_aborts_removes_aborted_transactions schedule :
  drop_aborts schedule = filter (λ a, abort (i a) ∉ schedule) schedule
  ∧ (∀ a, a ∈ drop_aborts schedule ↔ a ∈ schedule ∧ abort (i a) ∉ schedule)
  ∧ drop_aborts schedule `sublist_of` schedule
  ∧ (∀ a, a ∈ drop_aborts schedule → op a ≠ ABORT)
  ∧ drop_aborts (drop_aborts schedule) = drop_aborts schedule
  ∧ (drop_aborts schedule = schedule ↔ ∀ t, abort t ∉ schedule).
Proof.
  split_and!.
  - unfold drop_aborts. apply list_filter_iff. intros a.
    by rewrite elem_of_aborteds.
  - apply elem_of_drop_aborts.
  - apply sublist_filter.
  - intros a Ha Hop. destruct a; try done.
    by apply drop_aborts_no_abort in Ha.
  - apply drop_aborts_idemp.
  - split; [|apply drop_aborts_id].
    intros Heq t Ht. apply (drop_aborts_no_abort schedule t). by rewrite Heq.
Qed.

Lemma add_commits_unfold schedule :
  add_commits schedule
  = schedule
    ++ (commit <$> filter (λ j, (commit j ∉ schedule) ∧ (abort j ∉ schedule))
                          (transaction_ids schedule)).
Proof.
  unfold add_commits. do 2 f_equal. apply list_filter_iff. intros j.
  rewrite elem_of_ends. tauto.
Qed.

Lemma transaction_ids_add_commits schedule :
  transaction_ids (add_commits schedule) = transaction_ids schedule.
Proof.
  rewrite add_commits_unfold, transaction_ids_app.
  rewrite filter_Forall_nil; [by rewrite app_nil_r|].
  apply Forall_forall. intros j Hj Hnot. apply Hnot.
  apply elem_of_transaction_ids, list_elem_of_fmap in Hj as (a & -> & Ha).
  apply list_elem_of_fmap in Ha as (j & -> & Hj). simpl.
  by apply list_elem_of_filter in Hj as [_ ?].
Qed.

Lemma add_commits_has_end schedule t :
  t ∈ transaction_ids schedule →
  commit t ∈ add_commits schedule ∨ abort t ∈ add_commits schedule.
Proof.
  intros Ht. rewrite add_commits_unfold.
  destruct (decide (commit t ∈ schedule)) as [?|Hc].
  { left. apply elem_of_app. by left. }
  destruct (decide (abort t ∈ schedule)) as [?|Ha].
  { right. apply elem_of_app. by left. }
  left. apply elem_of_app. right. apply list_elem_of_fmap. exists t.
  split; [done|]. by apply list_elem_of_filter.
Qed.

Lemma add_commits_idemp schedule :
  add_commits (add_commits schedule) = add_commits schedule.
Proof.
  rewrite (add_commits_unfold (add_commits schedule)).
  rewrite transaction_ids_add_commits, filter_Forall_nil; [by rewrite app_nil_r|].
  apply Forall_forall. intros t Ht [Hc Ha].
  destruct (add_commits_has_end schedule t Ht); done.
Qed.

Lemma transaction_ids_filter (P : nat → Prop) `{!∀ j, Decision (P j)} schedule :
  transaction_ids (filter (λ a, P (i a)) schedule)
  = filter P (transaction_ids schedule).
Proof.
  induction schedule as [|a pre IH] using rev_ind; [done|].
  rewrite filter_app, transaction_ids_snoc.
  destruct (decide (P (i a))) as [HP|HP].
  - rewrite filter_cons_True, filter_nil, transaction_ids_snoc, IH by done.
    destruct (decide (i a ∈ transaction_ids pre)) as [Hin|Hnin].
    + rewrite decide_True; [done|]. by apply list_elem_of_filter.
    + rewrite decide_False by (by intros [_ ?]%list_elem_of_filter).
      by rewrite filter_app, filter_cons_True.
  - rewrite filter_cons_False, filter_nil, app_nil_r, IH by done.
    destruct (decide (i a ∈ transaction_ids pre)); [done|].
    by rewrite filter_app, filter_cons_False, filter_nil, app_nil_r.
Qed.

Lemma drop_aborts_unfold schedule :
  drop_aborts schedule = filter (λ a, abort (i a) ∉ schedule) schedule.
Proof.
  unfold drop_aborts. apply list_filter_iff. intros a.
  by rewrite elem_of_aborteds.
Qed.

Lemma drop_aborts_add_commits schedule :
  drop_aborts (add_commits schedule) = add_commits (drop_aborts schedule).
Proof.
  rewrite (add_commits_unfold (drop_aborts schedule)).
  assert (transaction_ids (drop_aborts schedule)
          = filter (λ t, abort t ∉ schedule) (transaction_ids schedule)) as ->.
  { rewrite drop_aborts_unfold.
    exact (transaction_ids_filter (λ t, abort t ∉ schedule) schedule). }
  rewrite list_filter_filter.
  rewrite (drop_aborts_unfold (add_commits schedule)), add_commits_unfold.
  rewrite filter_app.
  assert (∀ t, abort t ∈ schedule ++ (commit <$> filter
             (λ j, (commit j ∉ schedule) ∧ (abort j ∉ schedule))
             (transaction_ids schedule)) ↔ abort t ∈ schedule) as Hab.
  { intros t. rewrite elem_of_app, list_elem_of_fmap. split; [|by left].
    intros [?|(j & [=] & _)]. done. }
  f_equal.
  - rewrite drop_aborts_unfold. apply list_filter_iff. intros a.
    by rewrite Hab.
  - rewrite filter_Forall_id.
    + f_equal. apply list_filter_iff. intros j. split.
      * intros [Hc Ha]. split; [|done]. split.
        -- intros [? _]%elem_of_drop_aborts. done.
        -- intros [? _]%elem_of_drop_aborts. done.
      * intros [[Hc Ha] Hq]. split; [|done]. intros Hin. apply Hc.
        by apply elem_of_drop_aborts.
    + apply Forall_forall. intros a (j & -> & Hj)%list_elem_of_fmap.
      rewrite Hab. simpl. by apply list_elem_of_filter in Hj as [[_ ?] _].
Qed.

(** X4.  [add_commits] is idempotent and adds no transaction: in its
    result every transaction has a commit or an abort, and it changes
    nothing exactly when every transaction of the schedule already has
    one.  It commutes with [drop_aborts], and since [recoverable], [aca]
    and [strict] start with it, they give the same answer on a schedule
    and on the schedule with its commits added. *)
Theorem add_commits_idempotent schedule :
  add_commits (add_commits schedule) = add_commits schedule
  ∧ transaction_ids (add_commits schedule) = transaction_ids schedule
  ∧ (∀ a, a ∈ add_commits schedule →
          commit (i a) ∈ add_commits schedule
          ∨ abort (i a) ∈ add_commits schedule)
  ∧ (add_commits schedule = schedule ↔
     ∀ a, a ∈ schedule → commit (i a) ∈ schedule ∨ abort (i a) ∈ schedule)
  ∧ drop_aborts (add_commits schedule) = add_commits (drop_aborts schedule)
  ∧ recoverable (add_commits schedule) = recoverable schedule
  ∧ aca (add_commits schedule) = aca schedule
  ∧ strict (add_commits schedule) = strict schedule.
Proof.
  split_and!.
  - apply add_commits_idemp.
  - apply transaction_ids_add_commits.
  - intros a Ha. apply add_commits_has_end.
    rewrite <-transaction_ids_add_commits.
    apply elem_of_transaction_ids, list_elem_of_fmap. eauto.
  - rewrite add_commits_unfold. split.
    + intros Heq a Ha.
      assert (filter (λ j, (commit j ∉ schedule) ∧ (abort j ∉ schedule))
                (transaction_ids schedule) = []) as Hnil.
      { apply (f_equal length) in Heq. rewrite length_app, length_fmap in Heq.
        apply length_zero_iff_nil. lia. }
      destruct (decide (commit (i a) ∈ schedule)) as [?|Hc]; [by left|].
      destruct (decide (abort (i a) ∈ schedule)) as [?|Hab]; [by right|].
      exfalso.
      apply (filter_nil_not_elem_of _ _ (i a) Hnil); [done|].
      apply elem_of_transaction_ids, list_elem_of_fmap. eauto.
    + intros Hend. rewrite filter_Forall_nil; [by rewrite app_nil_r|].
      apply Forall_forall. intros t Ht [Hc Ha].
      apply elem_of_transaction_ids, list_elem_of_fmap in Ht as (a & -> & Hin).
      destruct (Hend a Hin); done.
  - apply drop_aborts_add_commits.
  - unfold recoverable. by rewrite add_commits_idemp.
  - unfold aca. by rewrite add_commits_idemp.
  - unfold strict. by rewrite add_commits_idemp.
Qed.

Lemma graphs_eq_true {N} `{Countable N} (g1 g2 : nx.DiGraph N) :
  graphs_eq g1 g2 = true ↔ nx.nodes g1 = nx.nodes g2 ∧ nx.edges g1 = nx.edges g2.
Proof.
  unfold graphs_eq. by rewrite andb_true_iff, !bool_decide_eq_true.
Qed.

Lemma view_equivalent_true s1 s2 :
  view_equivalent s1 s2 = Ok true ↔
  list_to_set (transaction_ids s1) =@{gset nat} list_to_set (transaction_ids s2)
  ∧ first_read s1 = first_read s2
  ∧ (nx.nodes (view_graph s1) = nx.nodes (view_graph s2)
     ∧ nx.edges (view_graph s1) = nx.edges (view_graph s2))
  ∧ last_written s1 = last_written s2.
Proof.
  rewrite view_equivalent_unfold, <-graphs_eq_true. case_decide as Hids.
  - split.
    + intros [= Hb]. apply andb_true_iff in Hb as [Hb H3].
      apply andb_true_iff in Hb as [H1 H2].
      apply bool_decide_eq_true in H1, H3. done.
    + intros (_ & H1 & H2 & H3). f_equal.
      rewrite H2, !andb_true_iff, !bool_decide_eq_true. done.
  - split; [done|]. by intros [? _].
Qed.

(** X8.  [view_equivalent] is reflexive, symmetric (also in whether it
    fails its assertion) and transitive. *)
Theorem view_equivalent_equivalence s1 s2 s3 :
  view_equivalent s1 s1 = Ok true
  ∧ view_equivalent s1 s2 = view_equivalent s2 s1
  ∧ (view_equivalent s1 s2 = Ok true → view_equivalent s2 s3 = Ok true →
     view_equivalent s1 s3 = Ok true).
Proof.
  split_and!.
  - by apply view_equivalent_true.
  - rewrite !view_equivalent_unfold.
    destruct (decide (list_to_set (transaction_ids s1)
                      =@{gset nat} list_to_set (transaction_ids s2))) as [E|E].
    + rewrite decide_True by done. f_equal.
      assert (∀ b1 b2 : bool, (b1 = true ↔ b2 = true) → b1 = b2) as Hbool.
      { intros [] [] [? ?]; try done; [symmetry|]; auto. }
      apply Hbool.
      rewrite !andb_true_iff, !bool_decide_eq_true, !graphs_eq_true.
      intuition congruence.
    + rewrite decide_False; [done|]. intros E'. by apply E.
  - rewrite !view_equivalent_true.
    intros (H1 & H2 & [H3 H4] & H5) (H1' & H2' & [H3' H4'] & H5').
    split_and!; congruence.
Qed.

(** X9.  [view_serializable] never fails the assertion of
    [view_equivalent]: every serial schedule it tries ranges over the
    transactions of the schedule.  It returns [True] exactly when the
    schedule without its aborted transactions is conflict serializable,
    or has a blind write and is view equivalent to the concatenation of
    some permutation of its transactions. *)
Theorem view_serializable_never_raises schedule :
  (∀ e, view_serializable schedule ≠ Raise e)
  ∧ (view_serializable schedule = Ok true ↔
     conflict_serializable (drop_aborts schedule) = true
     ∨ (has_blind_write (transactions (drop_aborts schedule)) = true
        ∧ ∃ p, p ≡ₚ transactions (drop_aborts schedule)
               ∧ view_equivalent (flatten p) (drop_aborts schedule)
                 = Ok true))
  ∧ (∀ p, p ≡ₚ transactions (drop_aborts schedule) →
          ∃ b, view_equivalent (flatten p) (drop_aborts schedule) = Ok b).
Proof.
  destruct (view_serializable_spec schedule) as (b & Hb & Htrue).
  split_and!.
  - intros e. by rewrite Hb.
  - rewrite Hb, <-Htrue. split; [by intros [= ->]|by intros ->].
  - intros p Hp%serial_same_transaction_ids.
    rewrite view_equivalent_unfold.
    rewrite decide_True by by apply same_transaction_ids_sets. eauto.
Qed.

(** X10.  Aborted transactions are ignored: the conflict graph,
    [conflict_serializable] and [view_serializable] are the same on a
    schedule and on the schedule without its aborted transactions. *)
Theorem aborted_transactions_are_ignored schedule :
  conflict_graph (drop_aborts schedule) = conflict_graph schedule
  ∧ conflict_serializable (drop_aborts schedule)
    = conflict_serializable schedule
  ∧ view_serializable (drop_aborts schedule) = view_serializable schedule.
Proof.
  split_and!.
  - apply conflict_graph_drop_aborts.
  - unfold conflict_serializable. by rewrite conflict_graph_drop_aborts.
  - unfold view_serializable. by rewrite drop_aborts_idemp.
Qed.

Lemma elem_of_first_readers o schedule t :
  t ∈ first_readers o schedule ↔
  ∃ p, schedule !! p = Some (r t o)
       ∧ ∀ q t', q < p → schedule !! q ≠ Some (w t' o).
Proof.
  induction schedule as [|a rest IH]; simpl.
  - split; [by intros ?%elem_of_nil|]. by intros (p & ? & _).
  - assert (a ≠ r t o → (∀ t', a ≠ w t' o) →
      (∃ p, (a :: rest) !! p = Some (r t o)
            ∧ ∀ q t', q < p → (a :: rest) !! q ≠ Some (w t' o)) ↔
      (∃ p, rest !! p = Some (r t o)
            ∧ ∀ q t', q < p → rest !! q ≠ Some (w t' o))) as Hskip.
    { intros Hr Hw. split.
      - intros ([|p] & Hp & Hq); simpl in Hp; [congruence|].
        exists p. split; [done|]. intros q t' Hlt.
        apply (Hq (S q) t'). lia.
      - intros (p & Hp & Hq). exists (S p). split; [done|].
        intros [|q] t' Hlt; simpl; [intros [= ?]; by eapply Hw|].
        apply Hq. lia. }
    destruct a as [t0 o'|t0 o'|t0|t0].
    + destruct (decide (o' = o)) as [->|Hne].
      * rewrite elem_of_cons, IH. split.
        -- intros [->|(p & Hp & Hq)].
           ++ exists 0. split; [done|]. intros q t' Hlt. lia.
           ++ exists (S p). split; [done|].
              intros [|q] t' Hlt; simpl; [done|]. apply Hq. lia.
        -- intros ([|p] & Hp & Hq); simpl in Hp.
           ++ left. congruence.
           ++ right. exists p. split; [done|]. intros q t' Hlt.
              apply (Hq (S q) t'). lia.
      * rewrite IH, Hskip; [done|congruence|done].
    + destruct (decide (o' = o)) as [->|Hne].
      * split; [by intros ?%elem_of_nil|].
        intros ([|p] & Hp & Hq); simpl in Hp; [done|].
        destruct (Hq 0 t0); [lia|done].
      * rewrite IH, Hskip; [done|done|congruence].
    + rewrite IH, Hskip; done.
    + rewrite IH, Hskip; done.
Qed.

(** X6.  [first_read] has a key for an object exactly when some read of
    the object comes before every write of it; the list stored there is
    never empty and holds the ids of exactly those reads: the reads of
    the object that no write of it precedes. *)
Theorem first_read_initial_readers schedule o :
  first_read schedule !! o = nonempty_list (first_readers o schedule)
  ∧ first_read schedule !! o ≠ Some []
  ∧ (is_Some (first_read schedule !! o) ↔
     ∃ p t, schedule !! p = Some (r t o)
            ∧ ∀ q t', q < p → schedule !! q ≠ Some (w t' o))
  ∧ (∀ t, t ∈ first_read schedule !!! o ↔
          ∃ p, schedule !! p = Some (r t o)
               ∧ ∀ q t', q < p → schedule !! q ≠ Some (w t' o)).
Proof.
  pose proof (first_read_lookup schedule o) as Hl.
  assert (first_read schedule !!! o = first_readers o schedule) as Htot.
  { rewrite lookup_total_alt, Hl. by destruct (first_readers o schedule). }
  split_and!.
  - done.
  - rewrite Hl. by destruct (first_readers o schedule).
  - rewrite Hl. split.
    + intros [l Hsome]. destruct (first_readers o schedule) as [|t l'] eqn:E;
        [done|].
      assert (t ∈ first_readers o schedule) as Ht by (rewrite E; by left).
      apply elem_of_first_readers in Ht as (p & ? & ?). by exists p, t.
    + intros (p & t & Hp & Hq).
      assert (t ∈ first_readers o schedule) as Ht.
      { apply elem_of_first_readers. by exists p. }
      destruct (first_readers o schedule); [by apply elem_of_nil in Ht|].
      by eexists.
  - intros t. rewrite Htot. apply elem_of_first_readers.
Qed.

(** X7.  [last_written] maps an object to the transaction of the last
    write of the object in the schedule: [t] is stored for [o] exactly
    when some [w t o] has no write of [o] after it. *)
Theorem last_written_final_writer schedule o t :
  last_written schedule !! o = Some t ↔
  ∃ p, schedule !! p = Some (w t o)
       ∧ ∀ q t', p < q → schedule !! q ≠ Some (w t' o).
Proof.
  unfold last_written. revert t.
  induction schedule as [|a pre IH] using rev_ind; intros t.
  - simpl. rewrite lookup_empty. split; [done|]. by intros (p & ? & _).
  - rewrite foldl_snoc.
    assert ((∀ t', a ≠ w t' o) →
      (∃ p, (pre ++ [a]) !! p = Some (w t o)
            ∧ ∀ q t', p < q → (pre ++ [a]) !! q ≠ Some (w t' o)) ↔
      (∃ p, pre !! p = Some (w t o)
            ∧ ∀ q t', p < q → pre !! q ≠ Some (w t' o))) as Hskip.
    { intros Hw. split.
      - intros (p & [[Hlt Hp]|[-> ->]]%lookup_snoc_Some & Hq);
          [|by destruct (Hw t)].
        exists p. split; [done|]. intros q t' Hpq Hq'.
        apply (Hq q t' Hpq). apply lookup_snoc_Some. left.
        split; [by eapply lookup_lt_Some|done].
      - intros (p & Hp & Hq). exists p. split.
        + apply lookup_snoc_Some. left.
          split; [by eapply lookup_lt_Some|done].
        + intros q t' Hpq [[_ ?]|[_ ->]]%lookup_snoc_Some;
            [by eapply Hq|by eapply Hw]. }
    destruct a as [t0 o'|t0 o'|t0|t0]; try (rewrite IH, Hskip; done).
    destruct (decide (o' = o)) as [->|Hne].
    + rewrite lookup_insert_eq. split.
      * intros [= ->]. exists (length pre). split.
        -- apply lookup_snoc_Some. by right.
        -- intros q t' Hlt [[? _]|[? _]]%lookup_snoc_Some; lia.
      * intros (p & [[Hlt Hp]|[-> [= ->]]]%lookup_snoc_Some & Hq); [|done].
        destruct (Hq (length pre) t0 Hlt). apply lookup_snoc_Some. by right.
    + rewrite lookup_insert_ne by done. rewrite IH, Hskip; [done|congruence].
Qed.

Lemma conflict_serializable_acyclic schedule :
  conflict_serializable schedule = true
  ↔ ¬ has_directed_cycle (conflict_graph schedule).
Proof.
  unfold conflict_serializable.
  rewrite bool_decide_eq_true, length_zero_iff_nil.
  apply simple_cycles_nil_iff, conflict_graph_edges_in_nodes.
Qed.

Lemma conflict_serializable_drop_aborts schedule :
  conflict_serializable (drop_aborts schedule) = conflict_serializable schedule.
Proof. unfold conflict_serializable. by rewrite conflict_graph_drop_aborts. Qed.

Lemma conflict_serializable_view schedule :
  conflict_serializable schedule = true → view_serializable schedule = Ok true.
Proof.
  intros Hcs. unfold view_serializable.
  by rewrite conflict_serializable_drop_aborts, Hcs.
Qed.

Lemma tc_mono {A} (R1 R2 : relation A) x y :
  (∀ x y, R1 x y → R2 x y) → tc R1 x y → tc R2 x y.
Proof.
  intros Hsub Htc. induction Htc as [x y H|x y z H _ IH].
  - apply tc_once. by apply Hsub.
  - eapply tc_l; [by apply Hsub|done].
Qed.

(** [number] one action further. *)
Lemma number_snoc schedule a :
  number (schedule ++ [a])
  = number schedule ++ [(length (filter (λ b, i b = i a) schedule), a)].
Proof.
  rewrite !number_spec, imap_app. simpl. f_equal.
  - apply imap_ext. intros p b Hp. unfold local_index.
    rewrite take_app_le; [done|]. apply lookup_lt_Some in Hp. lia.
  - unfold local_index. by rewrite Nat.add_0_r, take_app_length.
Qed.

(** X5.  [number] keeps the actions and their order, and within each
    transaction the numbers given to its actions count up from 0: they
    are 0, 1, ..., k-1 for a transaction of k actions. *)
Theorem number_counts_within_transaction schedule :
  (number schedule).*2 = schedule
  ∧ (∀ a, number (schedule ++ [a])
          = number schedule
            ++ [(length (filter (λ b, i b = i a) schedule), a)])
  ∧ (∀ t, (filter (λ na, i na.2 = t) (number schedule)).*1
          = seq 0 (length (filter (λ a, i a = t) schedule))).
Proof.
  split_and!.
  - apply number_snd.
  - intros a. apply number_snoc.
  - intros t. induction schedule as [|a pre IH] using rev_ind; [done|].
    rewrite number_snoc, !filter_app, fmap_app, length_app, seq_app, IH.
    f_equal. destruct (decide (i a = t)) as [<-|Hne].
    + by rewrite !filter_cons_True by done.
    + by rewrite !filter_cons_False by done.
Qed.

(** Serial schedules: blocks of actions, one transaction each. *)
Lemma sublist_pair_app {A} (a b : A) l1 l2 :
  [a; b] `sublist_of` l1 ++ l2 →
  [a; b] `sublist_of` l1 ∨ (a ∈ l1 ∧ b ∈ l2) ∨ [a; b] `sublist_of` l2.
Proof.
  intros (k1 & k2 & Hk & Hk1 & Hk2)%sublist_app_r.
  destruct k1 as [|x [|y k1]]; simplify_eq/=.
  - by right; right.
  - right; left. split; by apply singleton_sublist_l.
  - destruct k1; simplify_eq/=. by left.
Qed.

Lemma sublist_pair_lookup {A} (a b : A) l :
  [a; b] `sublist_of` l ↔ ∃ p q, p < q ∧ l !! p = Some a ∧ l !! q = Some b.
Proof.
  induction l as [|c l IH].
  - split; [by intros ?%sublist_nil_r|]. by intros (p & q & _ & ? & _).
  - rewrite sublist_pair_cons, IH. split.
    + intros [[-> Hb]|(p & q & Hlt & Hp & Hq)].
      * apply list_elem_of_lookup in Hb as [q Hq]. exists 0, (S q).
        split_and!; [lia|done|done].
      * exists (S p), (S q). split_and!; [lia|done|done].
    + intros (p & q & Hlt & Hp & Hq). destruct q as [|q]; [lia|].
      simpl in Hq. destruct p as [|p]; simpl in Hp.
      * left. split; [congruence|]. by eapply list_elem_of_lookup_2.
      * right. exists p, q. split_and!; [lia|done|done].
Qed.

Lemma tc_sublist_pair_lookup (ids : list nat) x y :
  NoDup ids → tc (λ x y, [x; y] `sublist_of` ids) x y →
  ∃ p q, p < q ∧ ids !! p = Some x ∧ ids !! q = Some y.
Proof.
  intros Hnd Htc. induction Htc as [x y H|x y z H _ IH].
  - by apply sublist_pair_lookup.
  - apply sublist_pair_lookup in H as (p & q & ? & ? & Hq).
    destruct IH as (q' & u & ? & Hq' & ?).
    assert (q = q') as <- by (by eapply NoDup_lookup).
    exists p, u. split_and!; [lia|done|done].
Qed.

Lemma blocks_edge_order ids (bs : list (list Action)) a b :
  Forall2 (λ j block, ∀ c, c ∈ block → i c = j) ids bs →
  [a; b] `sublist_of` flatten bs → i a ≠ i b →
  [i a; i b] `sublist_of` ids.
Proof.
  intros HF. induction HF as [|j block ids bs Hj HF IH]; intros Hsub Hne.
  - by apply sublist_nil_r in Hsub.
  - rewrite flatten_cons in Hsub.
    apply sublist_pair_app in Hsub as [Hs|[[Ha Hb]|Hs]].
    + exfalso. apply Hne.
      assert (a ∈ block) as Ha by (eapply elem_of_sublist; [|done]; by left).
      assert (b ∈ block) as Hb
        by (eapply elem_of_sublist; [|done]; right; by left).
      by rewrite (Hj a Ha), (Hj b Hb).
    + rewrite (Hj a Ha). apply sublist_pair_cons. left. split; [done|].
      apply elem_of_flatten in Hb as (l & Hl & Hb).
      apply list_elem_of_lookup in Hl as [k Hk].
      destruct (Forall2_lookup_r _ _ _ _ _ HF Hk) as (j' & Hj' & Hprop).
      rewrite (Hprop b Hb). by eapply list_elem_of_lookup_2.
    + apply sublist_cons. by apply IH.
Qed.

Lemma blocks_conflict_serializable ids bs :
  NoDup ids → Forall2 (λ j block, ∀ c, c ∈ block → i c = j) ids bs →
  conflict_serializable (flatten bs) = true.
Proof.
  intros Hnd HF. apply conflict_serializable_acyclic. intros [v Hv].
  assert (tc (λ x y, [x; y] `sublist_of` ids) v v) as Htc.
  { eapply tc_mono; [|done]. intros x y.
    intros (a & b & Hsub & _ & _ & <- & <- & _ & Hne & _)%conflict_graph_edges.
    by eapply blocks_edge_order. }
  apply tc_sublist_pair_lookup in Htc as (p & q & Hlt & Hp & Hq); [|done].
  assert (p = q) by (by eapply NoDup_lookup). lia.
Qed.

Lemma Forall2_Permutation_r {A B} (R : A → B → Prop) l k k' :
  k ≡ₚ k' → Forall2 R l k → ∃ l', l' ≡ₚ l ∧ Forall2 R l' k'.
Proof.
  intros Hp. revert l.
  induction Hp as [|x k k' _ IH|x y k|k k' k'' _ IH1 _ IH2]; intros l HF.
  - exists l. done.
  - apply Forall2_cons_inv_r in HF as (a & l0 & ? & HF & ->).
    destruct (IH _ HF) as (l' & ? & ?). exists (a :: l'). split.
    + by apply Permutation_skip.
    + by constructor.
  - apply Forall2_cons_inv_r in HF as (a & l0 & ? & HF & ->).
    apply Forall2_cons_inv_r in HF as (b & l1 & ? & HF & ->).
    exists (b :: a :: l1). split; [apply Permutation_swap|].
    by repeat constructor.
  - destruct (IH1 _ HF) as (l' & ? & HF').
    destruct (IH2 _ HF') as (l'' & ? & ?). exists l''. split; [by etrans|done].
Qed.

(** X11.  A serial schedule, the transactions of a schedule one after
    another in any order, is conflict serializable and view serializable:
    every candidate that the brute force loop of [view_serializable]
    builds passes both tests itself. *)
Theorem serial_schedule_serializable schedule p :
  p ≡ₚ transactions schedule →
  conflict_serializable (flatten p) = true
  ∧ view_serializable (flatten p) = Ok true.
Proof.
  intros Hp.
  assert (conflict_serializable (flatten p) = true) as Hcs.
  { assert (Forall2 (λ j block, ∀ c, c ∈ block → i c = j)
                    (transaction_ids schedule) (transactions schedule)) as HF.
    { rewrite transactions_spec. apply Forall2_fmap_r, Forall_Forall2_diag.
      apply Forall_forall. intros j _ c [? _]%list_elem_of_filter. done. }
    symmetry in Hp.
    destruct (Forall2_Permutation_r _ _ _ _ Hp HF) as (ids & Hids & HF').
    apply (blocks_conflict_serializable ids); [|done].
    rewrite Hids. apply NoDup_transaction_ids. }
  split; [done|]. by apply conflict_serializable_view.
Qed.

(** The theorem applied to the transactions of [schedule4] in order of
    first appearance. *)
Lemma serial_schedule_serializable_witness :
  conflict_serializable (flatten (transactions schedule4)) = true
  ∧ view_serializable (flatten (transactions schedule4)) = Ok true.
Proof. apply (serial_schedule_serializable schedule4). reflexivity. Defined.

(** X13.  Conflict serializability is inherited by a prefix, provided
    that no transaction of the prefix aborts in the rest of the schedule
    (an abort in the rest would remove the edges of that transaction). *)
Theorem conflict_serializable_prefix schedule rest :
  Forall (λ a, abort (i a) ∉ rest) schedule →
  conflict_serializable (schedule ++ rest) = true →
  conflict_serializable schedule = true.
Proof.
  rewrite !conflict_serializable_acyclic. intros Hno Hacyc [v Hv].
  apply Hacyc. exists v. eapply tc_mono; [|done]. intros x y.
  unfold edge_rel. rewrite !conflict_graph_edges.
  intros (a & b & Hsub & Ha & Hb & Hx & Hy & Hc). exists a, b.
  rewrite Forall_forall in Hno. split_and!; [ | | | done..].
  - etrans; [done|]. by apply sublist_inserts_r.
  - rewrite not_elem_of_app. split; [done|]. apply Hno.
    eapply elem_of_sublist; [|done]. by left.
  - rewrite not_elem_of_app. split; [done|]. apply Hno.
    eapply elem_of_sublist; [|done]. right. by left.
Qed.

(** The theorem applied to a prefix of three actions. *)
Lemma conflict_serializable_prefix_witness :
  conflict_serializable [r 1 "A"; w 2 "A"; w 1 "B"] = true.
Proof.
  apply (conflict_serializable_prefix _ [commit 1; r 3 "B"; commit 2; commit 3]).
  - apply (bool_decide_unpack _). vm_compute. exact I.
  - vm_compute. reflexivity.
Defined.

Lemma strict_aca schedule : strict schedule = true → aca schedule = true.
Proof.
  unfold strict, aca. intros Hs%bool_decide_eq_true.
  apply bool_decide_eq_true. by apply strict_scan_aca_scan.
Qed.

Lemma aca_recoverable schedule :
  aca schedule = true → recoverable schedule = true.
Proof.
  unfold aca, recoverable. intros Ha%bool_decide_eq_true.
  apply bool_decide_eq_true. apply aca_scan_recoverable_scan; [|done].
  intros t. by rewrite lookup_total_empty.
Qed.

Lemma strict_scan_commits st (ts : list nat) :
  is_Some (scan strict_step st (commit <$> ts)).
Proof.
  revert st. induction ts as [|t ts IH]; intros [lw com]; simpl; [eauto|].
  apply IH.
Qed.

Lemma aca_scan_commits st (ts : list nat) :
  is_Some (scan aca_step st (commit <$> ts)).
Proof.
  revert st. induction ts as [|t ts IH]; intros [lw com]; simpl; [eauto|].
  apply IH.
Qed.

Lemma scan_prefix_commits {St} (step : St → Action → option St)
    (schedule rest : list Action) ts st :
  (∀ st ts, is_Some (scan step st (commit <$> ts))) →
  is_Some (scan step st (schedule ++ rest)) →
  is_Some (scan step st (schedule ++ (commit <$> ts))).
Proof.
  intros Hcommits [st2 (st1 & H1 & _)%scan_app_Some].
  rewrite scan_app, H1. simpl. apply Hcommits.
Qed.

(** X16.  [strict] and [aca] are inherited by every prefix of a
    schedule: the commits that [add_commits] appends never fail their
    loops.  [recoverable] is not: the appended commits come in order of
    first appearance, which can put the commit of a reader before the
    commit of the transaction it has read from. *)
Theorem strict_aca_prefix_closed schedule rest :
  (strict (schedule ++ rest) = true → strict schedule = true)
  ∧ (aca (schedule ++ rest) = true → aca schedule = true)
  ∧ recoverable ([r 1 "Y"; w 2 "X"; r 1 "X"] ++ [commit 2; commit 1]) = true
  ∧ recoverable [r 1 "Y"; w 2 "X"; r 1 "X"] = false.
Proof.
  split_and!; [| |vm_compute; reflexivity..].
  - unfold strict. rewrite !bool_decide_eq_true, !add_commits_unfold.
    rewrite <-app_assoc. apply scan_prefix_commits, strict_scan_commits.
  - unfold aca. rewrite !bool_decide_eq_true, !add_commits_unfold.
    rewrite <-app_assoc. apply scan_prefix_commits, aca_scan_commits.
Qed.

(** Schedules without writes, and without reads. *)
Lemma strict_scan_no_write l com :
  Forall (λ a, op a ≠ WRITE) l →
  is_Some (scan strict_step (∅, com) l).
Proof.
  intros Hl. revert com.
  induction Hl as [|a l Ha _ IH]; intros com; cbn [scan]; [eauto|].
  destruct a as [t o|t o|t|t]; simpl.
  - unfold strict_check, last_writer. rewrite lookup_empty. simpl. apply IH.
  - done.
  - apply IH.
  - unfold purge. rewrite fmap_empty. apply IH.
Qed.

Lemma aca_scan_no_read l st :
  Forall (λ a, op a ≠ READ) l → is_Some (scan aca_step st l).
Proof.
  intros Hl. revert st.
  induction Hl as [|a l Ha _ IH]; intros [lw com]; cbn [scan]; [eauto|].
  destruct a as [t o|t o|t|t]; simpl; [done|apply IH..].
Qed.

Lemma Forall_add_commits (P : Action → Prop) schedule :
  (∀ t, P (commit t)) → Forall P schedule → Forall P (add_commits schedule).
Proof.
  intros Hc Hs. rewrite add_commits_unfold. apply Forall_app. split; [done|].
  apply Forall_fmap, Forall_forall. intros t _. apply Hc.
Qed.

(** X15.  A schedule without writes is conflict serializable, view
    serializable, strict, avoids cascading aborts and is recoverable. *)
Theorem read_only_schedule schedule :
  Forall (λ a, op a ≠ WRITE) schedule →
  conflict_serializable schedule = true
  ∧ view_serializable schedule = Ok true
  ∧ strict schedule = true
  ∧ aca schedule = true
  ∧ recoverable schedule = true.
Proof.
  intros Hro.
  assert (conflict_serializable schedule = true) as Hcs.
  { apply conflict_serializable_acyclic. intros [v Hv].
    assert (∃ y, edge_rel (conflict_graph schedule) v y) as [y Hy].
    { inversion Hv; subst; eauto. }
    apply conflict_graph_edges in Hy
      as (a & b & Hsub & _ & _ & _ & _ & _ & _ & Hw).
    rewrite Forall_forall in Hro. destruct Hw as [Hw|Hw].
    - apply (Hro a); [|done]. eapply elem_of_sublist; [|done]. by left.
    - apply (Hro b); [|done]. eapply elem_of_sublist; [|done].
      right. by left. }
  assert (strict schedule = true) as Hs.
  { unfold strict. apply bool_decide_eq_true, strict_scan_no_write.
    by apply Forall_add_commits. }
  split_and!; [done|by apply conflict_serializable_view|done
              |by apply strict_aca|by apply aca_recoverable, strict_aca].
Qed.

(** The theorem applied to a schedule of reads and an abort. *)
Lemma read_only_schedule_witness :
  conflict_serializable [r 1 "A"; r 2 "A"; abort 1; r 2 "B"] = true
  ∧ view_serializable [r 1 "A"; r 2 "A"; abort 1; r 2 "B"] = Ok true
  ∧ strict [r 1 "A"; r 2 "A"; abort 1; r 2 "B"] = true
  ∧ aca [r 1 "A"; r 2 "A"; abort 1; r 2 "B"] = true
  ∧ recoverable [r 1 "A"; r 2 "A"; abort 1; r 2 "B"] = true.
Proof.
  apply (read_only_schedule [r 1 "A"; r 2 "A"; abort 1; r 2 "B"]).
  apply (bool_decide_unpack _). vm_compute. exact I.
Defined.

(** X17.  A schedule without reads avoids cascading aborts and is
    recoverable. *)
Theorem write_only_schedule schedule :
  Forall (λ a, op a ≠ READ) schedule →
  aca schedule = true ∧ recoverable schedule = true.
Proof.
  intros Hwo.
  assert (aca schedule = true) as Ha.
  { unfold aca. apply bool_decide_eq_true, aca_scan_no_read.
    by apply Forall_add_commits. }
  split; [done|by apply aca_recoverable].
Qed.

(** The theorem applied to a schedule of two writes and an abort, which
    is not strict. *)
Lemma write_only_schedule_witness :
  aca [w 1 "A"; w 2 "A"; abort 1] = true
  ∧ recoverable [w 1 "A"; w 2 "A"; abort 1] = true
  ∧ strict [w 1 "A"; w 2 "A"; abort 1] = false.
Proof.
  destruct (write_only_schedule [w 1 "A"; w 2 "A"; abort 1]) as [Ha Hr].
  - apply (bool_decide_unpack _). vm_compute. exact I.
  - split_and!; [exact Ha|exact Hr|vm_compute; reflexivity].
Defined.

(** Blocks that end with a commit or an abort. *)
Lemma strict_check_all_committed_or t lw com o :
  all_committed_or t (lw, com) → strict_check lw com t o = false.
Proof.
  intros Hinv. unfold strict_check.
  destruct (last_writer lw o) as [j|] eqn:Hj; [|done].
  apply bool_decide_eq_false. intros [Hnc Hne].
  apply last_writer_elem_of in Hj. destruct (Hinv o j Hj); done.
Qed.

Lemma strict_step_own t st a :
  i a = t → all_committed_or t st →
  ∃ st', strict_step st a = Some st' ∧ all_committed_or t st'.
Proof.
  destruct st as [lw com]. intros Hi Hinv.
  destruct a as [t' o|t' o|t'|t']; simpl in Hi; subst t'; simpl.
  - rewrite strict_check_all_committed_or by done. eauto.
  - rewrite strict_check_all_committed_or by done. eexists. split; [done|].
    intros o' j. simpl. destruct (decide (o = o')) as [<-|Hne].
    + rewrite lookup_total_insert_eq, elem_of_app, list_elem_of_singleton.
      intros [?|?]; [by apply (Hinv o)|by right].
    + rewrite lookup_total_insert_ne by done. apply Hinv.
  - eexists. split; [done|]. intros o j Hj. simpl.
    destruct (Hinv o j Hj) as [?|?]; [left|by right].
    by apply elem_of_union_r.
  - eexists. split; [done|]. intros o j. simpl.
    rewrite purge_lookup_total. intros [_ Hj]%list_elem_of_filter.
    by apply (Hinv o).
Qed.

Lemma strict_scan_own t l st :
  Forall (λ a, i a = t) l → all_committed_or t st →
  ∃ st', scan strict_step st l = Some st' ∧ all_committed_or t st'.
Proof.
  intros Hl. revert st.
  induction Hl as [|a l Ha _ IH]; intros st Hinv; cbn [scan]; [eauto|].
  destruct (strict_step_own t st a Ha Hinv) as (st1 & -> & Hinv1).
  simpl. by apply IH.
Qed.

Lemma strict_step_end t st a :
  a = commit t ∨ a = abort t → all_committed_or t st →
  ∃ st', strict_step st a = Some st' ∧ all_committed st'.
Proof.
  destruct st as [lw com]. intros [->| ->] Hinv; simpl.
  - eexists. split; [done|]. intros o j Hj. simpl in *.
    destruct (Hinv o j Hj) as [?| ->].
    + by apply elem_of_union_r.
    + by apply elem_of_union_l, elem_of_singleton.
  - eexists. split; [done|]. intros o j. simpl.
    rewrite purge_lookup_total. intros [Hne Hj]%list_elem_of_filter.
    by destruct (Hinv o j Hj).
Qed.

Lemma strict_scan_terminated_blocks bs st :
  Forall terminated_block bs → all_committed st →
  ∃ st', scan strict_step st (flatten bs) = Some st' ∧ all_committed st'.
Proof.
  intros Hbs. revert st.
  induction Hbs as [|block bs (t & Hown & Hlast) _ IH]; intros st Hinv.
  - exists st. done.
  - rewrite flatten_cons, scan_app.
    assert (∃ body e, block = body ++ [e] ∧ (e = commit t ∨ e = abort t))
      as (body & e & -> & He).
    { destruct Hlast as [Hl|Hl]; apply last_Some in Hl as [body ->]; eauto. }
    apply Forall_app in Hown as [Hbody _].
    destruct (strict_scan_own t body st Hbody) as (st1 & H1 & Hinv1).
    { intros o j Hj. left. by apply (Hinv o). }
    destruct (strict_step_end t st1 e He Hinv1) as (st2 & H2 & Hinv2).
    rewrite scan_app, H1. cbn [mbind option_bind scan]. rewrite H2.
    cbn [mbind option_bind]. by apply IH.
Qed.

(** X12.  A schedule that runs transactions one after another, each
    ending with its commit or its abort, is strict, avoids cascading
    aborts and is recoverable. *)
Theorem terminated_blocks_strict bs :
  Forall terminated_block bs →
  strict (flatten bs) = true
  ∧ aca (flatten bs) = true
  ∧ recoverable (flatten bs) = true.
Proof.
  intros Hbs.
  assert (strict (flatten bs) = true) as Hs.
  { unfold strict. apply bool_decide_eq_true.
    rewrite add_commits_unfold, scan_app.
    destruct (strict_scan_terminated_blocks bs (∅, ∅) Hbs) as (st & -> & _).
    - intros o j. simpl. rewrite lookup_total_empty. by intros ?%elem_of_nil.
    - simpl. apply strict_scan_commits. }
  split_and!; [done|by apply strict_aca|by apply aca_recoverable, strict_aca].
Qed.

(** The theorem applied to three transactions, the second one aborted. *)
Lemma terminated_blocks_strict_witness :
  strict (flatten [[w 1 "X"; commit 1]; [r 2 "X"; w 2 "X"; abort 2];
                   [r 3 "X"; commit 3]]) = true
  ∧ aca (flatten [[w 1 "X"; commit 1]; [r 2 "X"; w 2 "X"; abort 2];
                  [r 3 "X"; commit 3]]) = true
  ∧ recoverable (flatten [[w 1 "X"; commit 1]; [r 2 "X"; w 2 "X"; abort 2];
                          [r 3 "X"; commit 3]]) = true.
Proof.
  apply terminated_blocks_strict.
  apply Forall_cons_2; [|apply Forall_cons_2; [|apply Forall_cons_2;
                                                  [|apply Forall_nil_2]]].
  - exists 1. split; [by repeat constructor|by left].
  - exists 2. split; [by repeat constructor|by right].
  - exists 3. split; [by repeat constructor|by left].
Defined.

Lemma blind_write_scan l b (R : gset string) :
  (foldl blind_write_step (b, R) l).1 = true ↔
  b = true ∨ ∃ pre t o post,
               l = pre ++ w t o :: post ∧ (o ∉ R) ∧ ∀ t', r t' o ∉ pre.
Proof.
  revert b R. induction l as [|a l IH]; intros b R.
  - simpl. split; [by left|].
    intros [?|(pre & t & o & post & Heq & _)]; [done|by destruct pre].
  - assert (∀ R' : gset string, (∀ t o, a = w t o → o ∈ R) →
        (∀ o, o ∉ R' ↔ (o ∉ R) ∧ ∀ t, a ≠ r t o) →
        ((b = true ∨ ∃ pre t o post,
            l = pre ++ w t o :: post ∧ (o ∉ R') ∧ ∀ t', r t' o ∉ pre)
         ↔ (b = true ∨ ∃ pre t o post,
            a :: l = pre ++ w t o :: post ∧ (o ∉ R) ∧ ∀ t', r t' o ∉ pre)))
      as Hshift.
    { intros R' Hw HR'. split.
      - intros [?|(pre & t & o & post & -> & Ho & Hpre)]; [by left|]. right.
        apply HR' in Ho as [Ho Ha].
        exists (a :: pre), t, o, post. split_and!; [done|done|].
        intros t' [?|?]%elem_of_cons; [by eapply Ha|by eapply Hpre].
      - intros [?|(pre & t & o & post & Heq & Ho & Hpre)]; [by left|]. right.
        destruct pre as [|c pre]; simplify_eq/=.
        { destruct Ho. by eapply Hw. }
        exists pre, t, o, post. split_and!; [done| |].
        + apply HR'. split; [done|]. intros t' ->. apply (Hpre t'). by left.
        + intros t' Hin. apply (Hpre t'). by right. }
    destruct a as [t o|t o|t|t]; cbn [foldl blind_write_step].
    + rewrite IH. apply Hshift; [done|]. intros o'.
      rewrite not_elem_of_union, not_elem_of_singleton. split.
      * intros [Hne ?]. split; [done|]. by intros t' [= _ ->].
      * intros [? Hne]. split; [|done]. intros ->. by apply (Hne t).
    + destruct (decide (o ∉ R)) as [Ho|Ho].
      * rewrite IH. split; [intros _|by left]. right.
        exists [], t, o, l. split_and!; [done|done|].
        by intros t' ?%elem_of_nil.
      * rewrite IH. apply Hshift.
        -- intros t' o' [= _ <-]. by apply dec_stable.
        -- intros o'. split; [|by intros [? _]]. by intros ?.
    + rewrite IH. apply Hshift; [done|]. intros o'.
      split; [|by intros [? _]]. by intros ?.
    + rewrite IH. apply Hshift; [done|]. intros o'.
      split; [|by intros [? _]]. by intros ?.
Qed.

Lemma has_blind_write_scan ps b :
  foldl (λ blind_write t, (foldl blind_write_step (blind_write, ∅) t).1) b ps
  = true ↔
  b = true ∨ ∃ block, block ∈ ps
                      ∧ ∃ pre t o post, block = pre ++ w t o :: post
                                        ∧ ∀ t', r t' o ∉ pre.
Proof.
  revert b. induction ps as [|block ps IH]; intros b.
  - simpl. split; [by left|]. intros [?|(? & []%elem_of_nil & _)]. done.
  - cbn [foldl]. rewrite IH, blind_write_scan. split.
    + intros [[?|(pre & t & o & post & ? & _ & ?)]|(block' & ? & ?)].
      * by left.
      * right. exists block. split; [by left|]. by exists pre, t, o, post.
      * right. exists block'. split; [by right|done].
    + intros [?|(block' & [->|?]%elem_of_cons
                 & (pre & t & o & post & ? & ?))].
      * left. by left.
      * left. right. exists pre, t, o, post. split_and!; [done| |done].
        apply not_elem_of_empty.
      * right. exists block'. split; [done|]. by exists pre, t, o, post.
Qed.

Lemma filter_app_cons_inv {A} (P : A → Prop) `{!∀ x, Decision (P x)}
    (l pre : list A) x post :
  filter P l = pre ++ x :: post →
  ∃ pre' post', l = pre' ++ x :: post'
                ∧ filter P pre' = pre ∧ filter P post' = post.
Proof.
  revert pre. induction l as [|c l IH]; intros pre.
  - by destruct pre.
  - rewrite filter_cons. destruct (decide (P c)) as [Hc|Hc].
    + destruct pre as [|c' pre]; intros [= -> Heq].
      * by exists [], l.
      * destruct (IH _ Heq) as (pre' & post' & -> & <- & <-).
        exists (c' :: pre'), post'. by rewrite filter_cons_True.
    + intros Heq. destruct (IH _ Heq) as (pre' & post' & -> & <- & <-).
      exists (c :: pre'), post'. by rewrite filter_cons_False.
Qed.

(** X18.  The blind write test of [view_serializable] finds a partition
    with a write of an object that no earlier action of the partition
    reads; on the partitions of a schedule, that is a write [w t o] that
    no read [r t o] of the same transaction precedes. *)
Theorem has_blind_write_spec ps schedule :
  (has_blind_write ps = true ↔
   ∃ block, block ∈ ps
            ∧ ∃ pre t o post, block = pre ++ w t o :: post
                              ∧ ∀ t', r t' o ∉ pre)
  ∧ (has_blind_write (transactions schedule) = true ↔
     ∃ pre t o post, schedule = pre ++ w t o :: post ∧ r t o ∉ pre).
Proof.
  assert (∀ qs, has_blind_write qs = true ↔
   ∃ block, block ∈ qs
            ∧ ∃ pre t o post, block = pre ++ w t o :: post
                              ∧ ∀ t', r t' o ∉ pre) as Hblocks.
  { intros qs. unfold has_blind_write. rewrite has_blind_write_scan.
    split; [by intros [?|?]|by right]. }
  split; [apply Hblocks|]. rewrite Hblocks, transactions_spec. split.
  - intros (block & (j & -> & Hj)%list_elem_of_fmap
            & pre & t & o & post & Heq & Hpre).
    assert (i (w t o) = j) as Ht.
    { assert (w t o ∈ filter (λ a, i a = j) schedule) as Hin.
      { rewrite Heq. apply elem_of_app. right. by left. }
      by apply list_elem_of_filter in Hin as [? _]. }
    simpl in Ht. subst j.
    apply filter_app_cons_inv in Heq as (pre' & post' & -> & <- & _).
    exists pre', t, o, post'. split; [done|]. intros Hin.
    apply (Hpre t). by apply list_elem_of_filter.
  - intros (pre & t & o & post & -> & Hpre).
    exists (filter (λ a, i a = t) (pre ++ w t o :: post)). split.
    + apply list_elem_of_fmap. exists t. split; [done|].
      apply elem_of_transaction_ids, list_elem_of_fmap. exists (w t o).
      split; [done|]. apply elem_of_app. right. by left.
    + exists (filter (λ a, i a = t) pre), t, o,
        (filter (λ a, i a = t) post).
      split; [by rewrite filter_app, filter_cons_True|].
      intros t' [Hi Hin]%list_elem_of_filter. simpl in Hi. by subst t'.
Qed.

Lemma surviving_writers_snoc o pre a :
  surviving_writers o (pre ++ [a])
  = match a with
    | w t o' => surviving_writers o pre ++ (if decide (o' = o) then [t] else [])
    | abort t => filter (λ j, j ≠ t) (surviving_writers o pre)
    | _ => surviving_writers o pre
    end.
Proof.
  induction pre as [|c pre IH].
  - destruct a as [t o'|t o'|t|t]; simpl; try done.
    destruct (decide (o' = o)) as [->|Hne].
    + rewrite decide_True; [done|]. split; [done|]. by intros ?%elem_of_nil.
    + rewrite decide_False; [done|]. by intros [? _].
  - rewrite <-app_comm_cons.
    destruct c as [t0 o0|t0 o0|t0|t0]; cbn [surviving_writers]; try done.
    rewrite IH. clear IH.
    destruct (decide (o0 = o ∧ abort t0 ∉ pre)) as [[-> Hno]|Hno].
    + destruct a as [t o'|t o'|t|t].
      * rewrite decide_True; [done|]. split; [done|].
        rewrite not_elem_of_app, list_elem_of_singleton. by split.
      * rewrite decide_True; [done|]. split; [done|].
        rewrite not_elem_of_app, list_elem_of_singleton. by split.
      * rewrite decide_True; [done|]. split; [done|].
        rewrite not_elem_of_app, list_elem_of_singleton. by split.
      * destruct (decide (t0 = t)) as [->|Hne].
        -- rewrite decide_False, filter_cons_False; [done|by intros ?|].
           intros [_ Hnot]. apply Hnot, elem_of_app. right. by left.
        -- rewrite decide_True, filter_cons_True; [done|done|].
           split; [done|].
           rewrite not_elem_of_app, list_elem_of_singleton. split; [done|].
           by intros [= ?].
    + rewrite decide_False; [done|]. intros [-> Hnot]. apply Hno.
      split; [done|]. intros Hin. apply Hnot, elem_of_app. by left.
Qed.

Lemma write_history_surviving l o :
  write_history l !!! o = surviving_writers o l.
Proof.
  unfold write_history. induction l as [|a pre IH] using rev_ind.
  - simpl. by rewrite lookup_total_empty.
  - rewrite foldl_snoc, surviving_writers_snoc.
    destruct a as [t o'|t o'|t|t]; simpl; try done.
    + destruct (decide (o' = o)) as [->|Hne].
      * by rewrite lookup_total_insert_eq, IH.
      * by rewrite lookup_total_insert_ne, IH, app_nil_r.
    + by rewrite purge_lookup_total, IH.
Qed.

Lemma last_writer_total ids o : last_writer ids o = last (ids !!! o).
Proof.
  unfold last_writer. rewrite lookup_total_alt. by destruct (ids !! o).
Qed.

Lemma last_writer_surviving l o :
  last_writer (write_history l) o = last (surviving_writers o l).
Proof. by rewrite last_writer_total, write_history_surviving. Qed.

Lemma elem_of_surviving_writers o l t :
  t ∈ surviving_writers o l ↔
  ∃ pre post, l = pre ++ w t o :: post ∧ abort t ∉ post.
Proof.
  induction l as [|a l IH]; simpl.
  - split; [by intros ?%elem_of_nil|]. intros (pre & ? & ? & _).
    by destruct pre.
  - assert ((∀ post, a :: l = w t o :: post → abort t ∈ post) →
      (∃ pre post, a :: l = pre ++ w t o :: post ∧ abort t ∉ post)
      ↔ (∃ pre post, l = pre ++ w t o :: post ∧ abort t ∉ post)) as Hskip.
    { intros Ha. split.
      - intros ([|c pre] & post & Heq & Hno); simplify_eq/=.
        + destruct Hno. by apply Ha.
        + by exists pre, post.
      - intros (pre & post & -> & Hno). by exists (a :: pre), post. }
    destruct a as [t0 o0|t0 o0|t0|t0]; try (rewrite IH, Hskip; done).
    destruct (decide (o0 = o ∧ abort t0 ∉ l)) as [[-> Hno]|Hno].
    + rewrite elem_of_cons, IH. split.
      * intros [->|(pre & post & -> & Hno')].
        -- by exists [], l.
        -- by exists (w t0 o :: pre), post.
      * intros ([|c pre] & post & Heq & Hno'); simplify_eq/=.
        -- by left.
        -- right. by exists pre, post.
    + rewrite IH, Hskip; [done|]. intros post [= -> -> ->].
      apply dec_stable. intros Hnot. by apply Hno.
Qed.

Section scan_ext.
Context {St : Type} (step1 step2 : St → Action → option St).

Lemma scan_ext st l :
  (∀ st a, step1 st a = step2 st a) → scan step1 st l = scan step2 st l.
Proof.
  intros Hext. revert st. induction l as [|a l IH]; intros st; simpl; [done|].
  rewrite Hext. destruct (step2 st a); simpl; [apply IH|done].
Qed.
End scan_ext.

Lemma aca_step_checked st a :
  aca_step st a = checked_step (λ a, bool_decide (op a = READ)) st a.
Proof.
  destruct st as [lw com]. destruct a as [t o|t o|t|t]; simpl; try done.
  unfold strict_check. destruct (last_writer lw o) as [j|]; [|done].
  destruct (decide ((j ∉ com) ∧ j ≠ t)) as [H|H].
  - by rewrite (bool_decide_eq_true_2 _ H).
  - by rewrite (bool_decide_eq_false_2 _ H).
Qed.

Lemma strict_step_checked st a :
  strict_step st a
  = checked_step (λ a, bool_decide (is_read_or_write a)) st a.
Proof.
  destruct st as [lw com]. by destruct a as [t o|t o|t|t].
Qed.

Lemma checked_scan_spec c l lw com :
  is_Some (scan (checked_step c) (lw, com) l) ↔
  ∀ pre a post o j,
    l = pre ++ a :: post → c a = true → obj a = Some o →
    last_writer (foldl history_step lw pre) o = Some j →
    j = i a ∨ j ∈ com ∨ commit j ∈ pre.
Proof.
  revert lw com. induction l as [|a l IH]; intros lw com.
  - split; [|intros _; simpl; eauto].
    intros _ pre a post o j Heq. by destruct pre.
  - cbn [scan].
    destruct (c a && match obj a with
                     | Some o => strict_check lw com (i a) o
                     | None => false
                     end) eqn:Hb.
    + assert (checked_step c (lw, com) a = None) as ->
        by (unfold checked_step; by rewrite Hb).
      cbn [mbind option_bind].
      split; [by intros [? ?]|]. intros Hall. exfalso.
      apply andb_true_iff in Hb as [Hc Hb].
      destruct (obj a) as [o|] eqn:Ho; [|done].
      unfold strict_check in Hb.
      destruct (last_writer lw o) as [j|] eqn:Hj; [|done].
      apply bool_decide_eq_true in Hb as [Hnc Hne].
      destruct (Hall [] a l o j eq_refl Hc Ho Hj) as [?|[?|?%elem_of_nil]];
        done.
    + assert (checked_step c (lw, com) a
              = Some (history_step lw a,
                      match a with commit t => {[t]} ∪ com | _ => com end))
        as -> by (unfold checked_step; by rewrite Hb).
      cbn [mbind option_bind]. rewrite IH. clear IH. split.
      * intros Hall pre a' post o j Heq Hc Ho Hj.
        destruct pre as [|c0 pre]; simplify_eq/=.
        -- rewrite Hc, Ho in Hb. simpl in Hb. unfold strict_check in Hb.
           rewrite Hj in Hb. apply bool_decide_eq_false in Hb.
           destruct (decide (j = i a')) as [?|Hne]; [by left|].
           destruct (decide (j ∈ com)) as [?|Hnc]; [right; by left|].
           destruct Hb. done.
        -- destruct (Hall pre a' post o j eq_refl Hc Ho Hj) as [?|[Hin|Hin]].
           ++ by left.
           ++ destruct c0 as [t0 o0|t0 o0|t0|t0]; try (right; by left).
              apply elem_of_union in Hin as [->%elem_of_singleton|?].
              ** right. right. by left.
              ** right. by left.
           ++ right. right. by right.
      * intros Hall pre a' post o j -> Hc Ho Hj.
        destruct (Hall (a :: pre) a' post o j eq_refl Hc Ho Hj)
          as [?|[Hin|Hin]].
        -- by left.
        -- right. left. destruct a; try done. by apply elem_of_union_r.
        -- apply elem_of_cons in Hin as [<-|Hin].
           ++ right. left. by apply elem_of_union_l, elem_of_singleton.
           ++ right. by right.
Qed.

Lemma aca_true_scan schedule :
  aca schedule = true ↔ is_Some (scan aca_step (∅, ∅) schedule).
Proof.
  unfold aca. rewrite bool_decide_eq_true, add_commits_unfold, scan_app.
  destruct (scan aca_step (∅, ∅) schedule) as [st|]; simpl.
  - split; [eauto|]. intros _. apply aca_scan_commits.
  - done.
Qed.

Lemma strict_true_scan schedule :
  strict schedule = true ↔ is_Some (scan strict_step (∅, ∅) schedule).
Proof.
  unfold strict. rewrite bool_decide_eq_true, add_commits_unfold, scan_app.
  destruct (scan strict_step (∅, ∅) schedule) as [st|]; simpl.
  - split; [eauto|]. intros _. apply strict_scan_commits.
  - done.
Qed.

Lemma checked_scan_dirty c schedule :
  is_Some (scan (checked_step c) (∅, ∅) schedule) ↔
  ∀ pre a post, schedule = pre ++ a :: post → c a = true → ¬ dirty pre a.
Proof.
  rewrite checked_scan_spec. split.
  - intros Hall pre a post Heq Hc (o & j & Ho & Hj & Hne & Hnc).
    rewrite <-last_writer_surviving in Hj.
    destruct (Hall pre a post o j Heq Hc Ho Hj) as [?|[?%elem_of_empty|?]];
      done.
  - intros Hall pre a post o j Heq Hc Ho Hj.
    destruct (decide (j = i a)) as [?|Hne]; [by left|].
    destruct (decide (commit j ∈ pre)) as [?|Hnc]; [right; by right|].
    destruct (Hall pre a post Heq Hc). exists o, j. split_and!; try done.
    by rewrite <-last_writer_surviving.
Qed.

(** X19.  The write history that [recoverable], [aca] and [strict] keep
    for an object lists the transactions of the writes of the object
    that survive: a write survives when its transaction does not abort
    later.  The most recent writer is the last of them, and [aca] and
    [strict] keep this history like [recoverable] does. *)
Theorem write_history_surviving_writers l o :
  write_history l !!! o = surviving_writers o l
  ∧ last_writer (write_history l) o = last (surviving_writers o l)
  ∧ (∀ t, t ∈ surviving_writers o l ↔
          ∃ pre post, l = pre ++ w t o :: post ∧ abort t ∉ post)
  ∧ (∀ st, scan aca_step (∅, ∅) l = Some st → st.1 = write_history l)
  ∧ (∀ st, scan strict_step (∅, ∅) l = Some st → st.1 = write_history l).
Proof.
  assert (∀ c l0 lw com st,
            scan (checked_step c) (lw, com) l0 = Some st →
            st.1 = foldl history_step lw l0) as Hchecked.
  { intros c l0. induction l0 as [|a l0 IH]; intros lw com st.
    - by intros [= <-].
    - intros ([lw1 com1] & Hstep & Hscan)%scan_cons_Some. simpl.
      unfold checked_step in Hstep.
      destruct (c a && _); [done|]. injection Hstep as <- <-.
      by apply IH in Hscan. }
  split_and!.
  - apply write_history_surviving.
  - apply last_writer_surviving.
  - apply elem_of_surviving_writers.
  - intros st Hscan. rewrite (scan_ext _ _ _ _ aca_step_checked) in Hscan.
    by apply Hchecked in Hscan.
  - intros st Hscan. rewrite (scan_ext _ _ _ _ strict_step_checked) in Hscan.
    by apply Hchecked in Hscan.
Qed.

(** X20.  [aca] returns [True] exactly when no read of the schedule is
    dirty, and [strict] exactly when no read and no write is: an access
    is dirty when the last surviving write of its object is by another
    transaction that has not committed yet. *)
Theorem aca_strict_no_dirty_access schedule :
  (aca schedule = true ↔
   ∀ pre a post, schedule = pre ++ a :: post → op a = READ → ¬ dirty pre a)
  ∧ (strict schedule = true ↔
     ∀ pre a post, schedule = pre ++ a :: post → is_read_or_write a →
                   ¬ dirty pre a).
Proof.
  split.
  - rewrite aca_true_scan, (scan_ext _ _ _ _ aca_step_checked).
    rewrite checked_scan_dirty.
    by setoid_rewrite bool_decide_eq_true.
  - rewrite strict_true_scan, (scan_ext _ _ _ _ strict_step_checked).
    rewrite checked_scan_dirty.
    by setoid_rewrite bool_decide_eq_true.
Qed.

Lemma snoc_eq_app_cons {A} (l : list A) a pre x post :
  l ++ [a] = pre ++ x :: post →
  (post = [] ∧ l = pre ∧ a = x)
  ∨ ∃ post', post = post' ++ [a] ∧ l = pre ++ x :: post'.
Proof.
  destruct post as [|y post _] using rev_ind.
  - intros [-> ->]%app_inj_tail. by left.
  - rewrite app_comm_cons, app_assoc. intros [-> ->]%app_inj_tail.
    right. by exists post.
Qed.

Lemma reads_from_snoc l a u j :
  reads_from (l ++ [a]) u j ↔
  reads_from l u j
  ∨ ∃ o, a = r u o ∧ last (surviving_writers o l) = Some j ∧ j ≠ u.
Proof.
  split.
  - intros (pre & o & post & Heq & Hj & Hne).
    apply snoc_eq_app_cons in Heq as [(-> & -> & ->)|(post' & -> & ->)].
    + right. by exists o.
    + left. by exists pre, o, post'.
  - intros [(pre & o & post & -> & Hj & Hne)|(o & -> & Hj & Hne)].
    + exists pre, o, (post ++ [a]). by rewrite <-app_assoc.
    + by exists l, o, [].
Qed.

Lemma commits_after_sources_snoc l a :
  commits_after_sources (l ++ [a]) ↔
  commits_after_sources l
  ∧ ∀ t j, a = commit t → reads_from l t j → commit j ∈ l.
Proof.
  split.
  - intros Hall. split.
    + intros pre t post j -> Hr. apply (Hall pre t (post ++ [a]) j); [|done].
      by rewrite <-app_assoc.
    + intros t j -> Hr. by apply (Hall l t [] j).
  - intros [Hl Ha] pre t post j Heq Hr.
    apply snoc_eq_app_cons in Heq as [(-> & -> & ->)|(post' & -> & ->)].
    + by apply (Ha t j).
    + by apply (Hl pre t post' j).
Qed.

Lemma recoverable_step_committed_iff st a st' j :
  recoverable_step st a = Some st' →
  j ∈ committed st' ↔ j ∈ committed st ∨ a = commit j.
Proof.
  destruct st as [wb rf com]. destruct a as [t o|t o|t|t]; simpl.
  - destruct (last_writer wb o) as [j'|]; [case_decide|];
      intros [= <-]; simpl; (split; [by left|by intros [?|?]]).
  - intros [= <-]. simpl. split; [by left|by intros [?|?]].
  - case_decide; [|done]. intros [= <-]. simpl.
    rewrite elem_of_union, elem_of_singleton. split.
    + intros [->|?]; [by right|by left].
    + intros [?|[= ->]]; [by right|by left].
  - intros [= <-]. simpl. split; [by left|by intros [?|?]].
Qed.

Lemma recoverable_step_read_from_iff st a st' u j :
  recoverable_step st a = Some st' →
  j ∈ read_from st' !!! u ↔
  j ∈ read_from st !!! u
  ∨ ∃ o, a = r u o ∧ last_writer (written_by st) o = Some j ∧ j ≠ u.
Proof.
  destruct st as [wb rf com]. destruct a as [t o|t o|t|t]; simpl.
  - destruct (last_writer wb o) as [j'|] eqn:Hj'; [case_decide as Hne|].
    + intros [= <-]. simpl. destruct (decide (t = u)) as [->|Htu].
      * rewrite lookup_total_insert_eq, elem_of_union, elem_of_singleton.
        split.
        -- intros [->|?]; [right|by left]. by exists o.
        -- intros [?|(o' & [= <-] & Hl & _)]; [by right|left].
           congruence.
      * rewrite lookup_total_insert_ne by done.
        split; [by left|]. intros [?|(o' & [= ? _] & _)]; done.
    + intros [= <-]. simpl. split; [by left|].
      intros [?|(o' & [= <- <-] & Hl & Hju)]; [done|]. congruence.
    + intros [= <-]. simpl. split; [by left|].
      intros [?|(o' & [= <- <-] & Hl & Hju)]; [done|]. congruence.
  - intros [= <-]. simpl. split; [by left|]. by intros [?|(? & ? & _)].
  - case_decide; [|done]. intros [= <-]. simpl.
    assert (<[t := rf !!! t]> rf !!! u = rf !!! u) as ->.
    { destruct (decide (t = u)) as [->|Htu].
      - by rewrite lookup_total_insert_eq.
      - by rewrite lookup_total_insert_ne. }
    split; [by left|]. by intros [?|(? & ? & _)].
  - intros [= <-]. simpl. split; [by left|]. by intros [?|(? & ? & _)].
Qed.

Lemma recoverable_step_None st a :
  recoverable_step st a = None →
  ∃ t, a = commit t ∧ ¬ read_from st !!! t ⊆ committed st.
Proof.
  destruct st as [wb rf com]. destruct a as [t o|t o|t|t]; simpl; try done.
  - destruct (last_writer wb o); [case_decide|]; done.
  - case_decide; [done|]. intros _. by exists t.
Qed.

Lemma recoverable_step_commit st t st' :
  recoverable_step st (commit t) = Some st' →
  read_from st !!! t ⊆ committed st.
Proof. destruct st as [wb rf com]. simpl. by case_decide. Qed.

Lemma recoverable_scan_spec l :
  match scan recoverable_step recoverable_init l with
  | Some st =>
      written_by st = write_history l
      ∧ (∀ j, j ∈ committed st ↔ commit j ∈ l)
      ∧ (∀ u j, j ∈ read_from st !!! u ↔ reads_from l u j)
      ∧ commits_after_sources l
  | None => ¬ commits_after_sources l
  end.
Proof.
  induction l as [|a l IH] using rev_ind.
  - simpl. split_and!.
    + done.
    + intros j. split; [by intros ?%elem_of_empty|by intros ?%elem_of_nil].
    + intros u j. rewrite lookup_total_empty. split.
      * by intros ?%elem_of_empty.
      * intros (pre & ? & ? & ? & _). by destruct pre.
    + intros pre ? ? ? ?. by destruct pre.
  - rewrite scan_app.
    destruct (scan recoverable_step recoverable_init l) as [st|];
      cbn [mbind option_bind scan].
    2:{ rewrite commits_after_sources_snoc. by intros [? _]. }
    destruct IH as (Hwb & Hcom & Hrf & HP).
    destruct (recoverable_step st a) as [st'|] eqn:Hstep;
      cbn [mbind option_bind].
    + split_and!.
      * rewrite (recoverable_step_written_by _ _ _ Hstep), Hwb.
        unfold write_history. by rewrite foldl_snoc.
      * intros j. rewrite (recoverable_step_committed_iff _ _ _ _ Hstep).
        rewrite Hcom, elem_of_app, list_elem_of_singleton.
        split; (intros [?|?]; [by left|by right]).
      * intros u j. rewrite (recoverable_step_read_from_iff _ _ _ _ _ Hstep).
        rewrite Hrf, reads_from_snoc, Hwb.
        by setoid_rewrite last_writer_surviving.
      * apply commits_after_sources_snoc. split; [done|].
        intros t j -> Hr. apply Hcom.
        apply (recoverable_step_commit _ _ _ Hstep). by apply Hrf.
    + apply recoverable_step_None in Hstep as (t & -> & Hsub).
      intros [_ Ha]%commits_after_sources_snoc. apply Hsub.
      intros j Hj. apply Hcom, (Ha t j eq_refl), Hrf, Hj.
Qed.

(** X21.  [recoverable] returns [True] exactly when, in the schedule
    with its commits added, every commit comes after the commits of all
    the transactions that the committing transaction has read from.  In
    its loop, [committed] holds the transactions with a commit so far and
    [read_from] the read-from dependencies so far. *)
Theorem recoverable_commits_after_sources schedule :
  (recoverable schedule = true ↔
   ∀ pre t post j,
     add_commits schedule = pre ++ commit t :: post →
     reads_from pre t j → commit j ∈ pre)
  ∧ (∀ l st, scan recoverable_step recoverable_init l = Some st →
             (∀ j, j ∈ committed st ↔ commit j ∈ l)
             ∧ (∀ u j, j ∈ read_from st !!! u ↔ reads_from l u j)).
Proof.
  split.
  - unfold recoverable. rewrite bool_decide_eq_true.
    pose proof (recoverable_scan_spec (add_commits schedule)) as Hspec.
    fold recoverable_init.
    destruct (scan recoverable_step recoverable_init (add_commits schedule))
      as [st|].
    + destruct Hspec as (_ & _ & _ & HP). split; [done|eauto].
    + split; [by intros [? ?]|]. intros HP. by destruct Hspec.
  - intros l st Hscan. pose proof (recoverable_scan_spec l) as Hspec.
    rewrite Hscan in Hspec. by destruct Hspec as (_ & ? & ? & _).
Qed.

(** *** schedule.py: interleavings *)

Section shuffle_lemmas.
Context {V : Type} (none : V).

Lemma assign_all_spec (s vs : list V) ks :
  NoDup ks → length vs = length ks → Forall (λ k, k < length s) ks →
  ∃ s', assign_all s vs ks = Some s'
        ∧ length s' = length s
        ∧ (∀ j k, ks !! j = Some k → s' !! k = vs !! j)
        ∧ (∀ p, p ∉ ks → s' !! p = s !! p).
Proof.
  revert s vs. induction ks as [|k ks IH]; intros s vs Hnd Hlen Hlt.
  - destruct vs; [|done]. exists s. split_and!; [done|done| |done].
    intros j k. by rewrite lookup_nil.
  - destruct vs as [|v vs]; [done|]. simpl in Hlen.
    apply NoDup_cons in Hnd as [Hk Hnd]. apply Forall_cons in Hlt as [Hks Hlt].
    cbn [assign_all]. unfold assign. rewrite decide_True by done.
    cbn [mbind option_bind].
    destruct (IH (<[k:=v]> s) vs) as (s' & -> & Hlen' & Hin & Hout).
    { done. }
    { lia. }
    { by rewrite length_insert. }
    exists s'. rewrite length_insert in Hlen'. split_and!; [done|done| |].
    + intros [|j] k'; simpl.
      * intros [= <-]. rewrite (Hout k Hk). by apply list_lookup_insert_eq.
      * apply Hin.
    + intros p [Hpk Hp]%not_elem_of_cons. rewrite (Hout p Hp).
      by apply list_lookup_insert_ne.
Qed.

Lemma StronglySorted_le_lt (ks : list nat) :
  StronglySorted (≤) ks → NoDup ks → StronglySorted (<) ks.
Proof.
  induction 1 as [|k ks _ IH Hall]; intros Hnd; [constructor|].
  apply NoDup_cons in Hnd as [Hk Hnd]. constructor; [by apply IH|].
  rewrite Forall_forall in Hall |- *. intros b Hb.
  specialize (Hall b Hb). assert (k ≠ b) by (by intros ->). lia.
Qed.

Lemma StronglySorted_seq j n : StronglySorted (<) (seq j n).
Proof.
  revert j. induction n as [|n IH]; intros j; simpl; [constructor|].
  constructor; [apply IH|]. apply Forall_forall. intros b [? ?]%elem_of_seq.
  lia.
Qed.

Lemma StronglySorted_filter {A} (R : relation A) (P : A → Prop)
    `{!∀ x, Decision (P x)} l :
  StronglySorted R l → StronglySorted R (filter P l).
Proof.
  induction 1 as [|x l _ IH Hall]; [constructor|].
  rewrite filter_cons. destruct (decide (P x)); [|done].
  constructor; [done|]. rewrite Forall_forall in Hall |- *.
  intros y [_ Hy]%list_elem_of_filter. by apply Hall.
Qed.

Lemma positions_sublist (l vs : list V) ks :
  StronglySorted (<) ks → length vs = length ks →
  (∀ j k, ks !! j = Some k → l !! k = vs !! j) →
  vs `sublist_of` l.
Proof.
  revert vs ks. induction l as [|z l IH] using rev_ind; intros vs ks Hs Hlen Hpos.
  - destruct ks as [|k ks].
    + destruct vs; [done|done].
    + destruct vs as [|v vs]; [done|]. by specialize (Hpos 0 k eq_refl).
  - destruct ks as [|k ks _] using rev_ind.
    { destruct vs; [|done]. apply sublist_nil_l. }
    destruct vs as [|v vs _] using rev_ind.
    { rewrite length_app in Hlen. simpl in Hlen. lia. }
    rewrite !length_app in Hlen. simpl in Hlen.
    assert (length vs = length ks) as Hlen' by lia.
    apply StronglySorted_app in Hs as (Hlast & Hs & _).
    assert ((ks ++ [k]) !! length ks = Some k) as Hkk.
    { apply lookup_snoc_Some. by right. }
    assert ((vs ++ [v]) !! length ks = Some v) as Hvv.
    { apply lookup_snoc_Some. right. by rewrite Hlen'. }
    pose proof (Hpos (length ks) k Hkk) as Hk. rewrite Hvv in Hk.
    assert (k < length (l ++ [z])) as Hklt by (by eapply lookup_lt_Some).
    rewrite length_app in Hklt. simpl in Hklt.
    destruct (decide (k = length l)) as [->|Hne].
    + apply lookup_snoc_Some in Hk as [[? _]|[_ <-]]; [lia|].
      apply sublist_app; [|done].
      apply (IH vs ks Hs Hlen'). intros j k' Hj.
      assert (k' < length l) as Hk'.
      { apply (Hlast k' (length l)); [by eapply list_elem_of_lookup_2|by left]. }
      assert (j < length vs) as Hjlt.
      { rewrite Hlen'. by eapply lookup_lt_Some. }
      rewrite <-(lookup_app_l l [z]) by done.
      rewrite <-(lookup_app_l vs [z]) by done.
      apply Hpos. by apply lookup_app_l_Some.
    + apply sublist_inserts_r.
      apply (IH (vs ++ [v]) (ks ++ [k])).
      * apply StronglySorted_app. split_and!; [done|done|].
        repeat constructor.
      * rewrite !length_app. simpl. lia.
      * intros j k' Hj.
        assert (k' ≤ k) as Hk'.
        { apply lookup_snoc_Some in Hj as [[_ Hj]|[_ <-]]; [|done].
          apply Nat.lt_le_incl, (Hlast k' k);
            [by eapply list_elem_of_lookup_2|by left]. }
        rewrite <-(lookup_app_l l [z]) by lia. by apply Hpos.
Qed.

Lemma positions_Permutation (l xs ys : list V) xi yi :
  xi ++ yi ≡ₚ seq 0 (length l) →
  length xs = length xi → length ys = length yi →
  (∀ j k, xi !! j = Some k → l !! k = xs !! j) →
  (∀ j k, yi !! j = Some k → l !! k = ys !! j) →
  l ≡ₚ xs ++ ys.
Proof.
  intros Hperm Hlx Hly Hx Hy.
  assert (∀ (vs : list V) ks, length vs = length ks →
            (∀ j k, ks !! j = Some k → l !! k = vs !! j) →
            (λ k, default none (l !! k)) <$> ks = vs) as Hmap.
  { intros vs ks Hlen Hpos. apply list_eq. intros j.
    rewrite list_lookup_fmap.
    destruct (ks !! j) as [k|] eqn:Hj; simpl.
    - rewrite (Hpos j k Hj).
      destruct (vs !! j) as [v|] eqn:Hv; [done|].
      apply lookup_ge_None in Hv. apply lookup_lt_Some in Hj. lia.
    - symmetry. apply lookup_ge_None. apply lookup_ge_None in Hj. lia. }
  assert (l = (λ k, default none (l !! k)) <$> seq 0 (length l)) as Hl.
  { apply list_eq. intros p. rewrite list_lookup_fmap.
    destruct (decide (p < length l)) as [Hp|Hp].
    - rewrite lookup_seq_lt by done. simpl.
      destruct (l !! p) as [v|] eqn:Hv; [done|].
      apply lookup_ge_None in Hv. lia.
    - rewrite lookup_seq_ge by lia. apply lookup_ge_None. lia. }
  rewrite Hl at 1. rewrite <-Hperm, fmap_app.
  by rewrite (Hmap xs xi Hlx Hx), (Hmap ys yi Hly Hy).
Qed.

Lemma complement_Permutation (xi : list nat) N :
  NoDup xi → Forall (λ k, k < N) xi →
  xi ++ filter (λ k, k ∉ xi) (seq 0 N) ≡ₚ seq 0 N.
Proof.
  intros Hnd Hlt.
  rewrite <-(filter_app_complement (λ k, k ∈ xi) (seq 0 N)) at 2.
  apply Permutation_app_tail. apply NoDup_Permutation.
  - done.
  - apply NoDup_filter, NoDup_seq.
  - intros k. rewrite list_elem_of_filter, elem_of_seq. split; [|by intros [? _]].
    intros Hk. split; [done|]. rewrite Forall_forall in Hlt.
    specialize (Hlt k Hk). lia.
Qed.

Lemma shuffle_spec (xs ys : list V) sample :
  valid_sample (length xs) (length xs + length ys) sample →
  ∃ l, shuffle none xs ys sample = Some l
       ∧ l ≡ₚ xs ++ ys
       ∧ xs `sublist_of` l
       ∧ ys `sublist_of` l
       ∧ (∀ j k, merge_sort (≤) sample !! j = Some k → l !! k = xs !! j).
Proof.
  intros (Hnd & Hlen & Hlt). unfold shuffle.
  set (N := length xs + length ys).
  set (xi := merge_sort (≤) sample).
  set (yi := filter (λ k, k ∉ xi) (seq 0 N)).
  assert (xi ≡ₚ sample) as Hxi by apply merge_sort_Permutation.
  assert (NoDup xi) as Hndx by by rewrite Hxi.
  assert (length xs = length xi) as Hlx by by rewrite Hxi.
  assert (Forall (λ k, k < N) xi) as Hltx by by rewrite Hxi.
  assert (xi ++ yi ≡ₚ seq 0 N) as Hperm by by apply complement_Permutation.
  assert (length ys = length yi) as Hly.
  { apply Permutation_length in Hperm.
    rewrite length_app, length_seq in Hperm. unfold N in Hperm. lia. }
  destruct (assign_all_spec (replicate N none) xs xi)
    as (s1 & -> & Hl1 & Hin1 & _); [done|done|by rewrite length_replicate|].
  rewrite length_replicate in Hl1. cbn [mbind option_bind].
  destruct (assign_all_spec s1 ys yi) as (s2 & -> & Hl2 & Hin2 & Hout2).
  { apply NoDup_filter, NoDup_seq. }
  { done. }
  { rewrite Hl1. apply Forall_forall.
    intros k [_ [_ ?]%elem_of_seq]%list_elem_of_filter. lia. }
  rewrite Hl1 in Hl2.
  assert (∀ j k, xi !! j = Some k → s2 !! k = xs !! j) as Hx.
  { intros j k Hj. rewrite Hout2; [by apply Hin1|].
    intros [Hk _]%list_elem_of_filter. apply Hk.
    by eapply list_elem_of_lookup_2. }
  exists s2. split_and!.
  - done.
  - apply (positions_Permutation s2 xs ys xi yi); try done. by rewrite Hl2.
  - apply (positions_sublist s2 xs xi); [|done|done].
    apply StronglySorted_le_lt; [|done].
    apply StronglySorted_merge_sort; apply _.
  - apply (positions_sublist s2 ys yi); [|done|done].
    apply StronglySorted_filter, StronglySorted_seq.
  - done.
Qed.

Lemma shuffles_snoc (ls : list (list V)) ys samples :
  shuffles none (ls ++ [ys]) samples
  = shuffles none ls samples
    ≫= λ xs, shuffle none xs ys (samples (length ls)).
Proof.
  unfold shuffles. rewrite imap_app, foldl_app. simpl.
  by rewrite Nat.add_0_r.
Qed.

End shuffle_lemmas.

(** One of the possible outputs that the docstring of [shuffle] lists. *)
Example shuffle_doctest :
  shuffle "" ["1"; "2"; "3"] ["a"; "b"; "c"] [3; 0; 1]
  = Some ["1"; "2"; "a"; "3"; "b"; "c"].
Proof. vm_compute. reflexivity. Qed.

(** X22.  With a sample of [len(xs)] distinct indices below
    [len(xs) + len(ys)], [shuffle] raises no [IndexError] and returns an
    interleaving of the two lists: a list of [len(xs) + len(ys)] elements
    that holds the elements of [xs] and [ys], each as often as they do,
    with [xs] and [ys] as subsequences, and with the elements of [xs] at
    the sampled positions, in increasing order of position. *)
Theorem shuffle_interleaves {V} (none : V) (xs ys : list V) sample :
  valid_sample (length xs) (length xs + length ys) sample →
  ∃ l, shuffle none xs ys sample = Some l
       ∧ length l = length xs + length ys
       ∧ l ≡ₚ xs ++ ys
       ∧ xs `sublist_of` l
       ∧ ys `sublist_of` l
       ∧ (∀ j k, merge_sort (≤) sample !! j = Some k → l !! k = xs !! j).
Proof.
  intros Hvalid.
  destruct (shuffle_spec none xs ys sample Hvalid)
    as (l & Hl & Hperm & Hxs & Hys & Hpos).
  exists l. split_and!; try done.
  by rewrite Hperm, length_app.
Qed.

(** The theorem applied to the example of the docstring. *)
Lemma shuffle_interleaves_witness :
  ∃ l, shuffle "" ["1"; "2"; "3"] ["a"; "b"; "c"] [3; 0; 1] = Some l
       ∧ length l = 6
       ∧ l ≡ₚ ["1"; "2"; "3"; "a"; "b"; "c"]
       ∧ ["1"; "2"; "3"] `sublist_of` l
       ∧ ["a"; "b"; "c"] `sublist_of` l
       ∧ (∀ j k, merge_sort (≤) [3; 0; 1] !! j = Some k →
                 l !! k = ["1"; "2"; "3"] !! j).
Proof.
  apply (shuffle_interleaves "" ["1"; "2"; "3"] ["a"; "b"; "c"] [3; 0; 1]).
  split_and!.
  - apply (bool_decide_unpack _). vm_compute. exact I.
  - reflexivity.
  - apply (bool_decide_unpack _). vm_compute. exact I.
Defined.

(** X23.  [shuffles] interleaves a list of lists: when the sample drawn
    for each list is valid for the lengths at that call, the result holds
    the elements of all the lists, each as often as they do, and every
    list is a subsequence of the result, so the order within each list is
    kept. *)
Theorem shuffles_interleaves {V} (none : V) (ls : list (list V)) samples :
  (∀ k ys, ls !! k = Some ys →
           valid_sample (length (flatten (take k ls)))
                        (length (flatten (take k ls)) + length ys)
                        (samples k)) →
  ∃ l, shuffles none ls samples = Some l
       ∧ l ≡ₚ flatten ls
       ∧ (∀ ys, ys ∈ ls → ys `sublist_of` l).
Proof.
  induction ls as [|ys ls IH] using rev_ind; intros Hvalid.
  - exists []. split_and!; [done|done|]. by intros ys ?%elem_of_nil.
  - destruct IH as (l & Hl & Hperm & Hsub).
    { intros k zs Hk. pose proof (lookup_lt_Some _ _ _ Hk) as Hlt.
      specialize (Hvalid k zs (lookup_app_l_Some _ _ _ _ Hk)).
      by rewrite take_app_le in Hvalid by lia. }
    specialize (Hvalid (length ls) ys).
    rewrite lookup_app_r, Nat.sub_diag, take_app_length in Hvalid by lia.
    specialize (Hvalid eq_refl).
    rewrite <-(Permutation_length Hperm) in Hvalid.
    destruct (shuffle_spec none l ys _ Hvalid)
      as (l' & Hl' & Hperm' & Hs1 & Hs2 & _).
    exists l'. split_and!.
    + by rewrite shuffles_snoc, Hl.
    + rewrite Hperm', Hperm.
      by rewrite flatten_app, flatten_cons, flatten_nil, app_nil_r.
    + intros zs [Hin|Hin]%elem_of_app.
      * etrans; [by apply Hsub|done].
      * apply list_elem_of_singleton in Hin. by subst zs.
Qed.

(** The theorem applied to three lists. *)
Lemma shuffles_interleaves_witness :
  ∃ l, shuffles 0 [[1; 2]; [3; 4]; [5]]
         (λ k, match k with 0 => [] | 1 => [3; 1] | _ => [4; 0; 2; 1] end)
       = Some l
       ∧ l ≡ₚ flatten [[1; 2]; [3; 4]; [5]]
       ∧ (∀ ys, ys ∈ [[1; 2]; [3; 4]; [5]] → ys `sublist_of` l).
Proof.
  apply (shuffles_interleaves 0 [[1; 2]; [3; 4]; [5]]).
  intros [|[|[|k]]] ys Hk; simplify_eq/=.
  - split_and!; [apply NoDup_nil_2|reflexivity|apply Forall_nil_2].
  - split_and!; [|reflexivity|].
    + apply (bool_decide_unpack _). vm_compute. exact I.
    + apply (bool_decide_unpack _). vm_compute. exact I.
  - split_and!; [|reflexivity|].
    + apply (bool_decide_unpack _). vm_compute. exact I.
    + apply (bool_decide_unpack _). vm_compute. exact I.
Defined.
